(** * buildr: the translation service (src/lib/translate.ts, src/util.ts)

    A shallow embedding of the i18n translation service: the JSON documents
    it reads, lodash's [transform] and [isEqual] as [diffObjects] uses them,
    Node's POSIX path functions, the file system and the provider as the
    service sees them, and the methods of [TranslateService].

    Conventions of the embedding.
    - A resource file holds a JSON object; its values are strings, numbers,
      booleans, null and nested objects (arrays do not occur in resource
      files and are not modelled).  Numbers matter only through equality
      and the zero test, and are integers here.  A string is the sequence
      of its code units, so [String.length] is JavaScript's [length].
    - A JavaScript object is the list of its own properties in the order in
      which [Object.keys], spreading, lodash's [transform] and
      [JSON.stringify] enumerate them: array-index keys in ascending order
      first, then the other keys in creation order.  A property read
      [o[k]] goes on to [Object.prototype] when [o] has no own property
      [k], and an assignment [o[k] = v] goes through the inherited
      [__proto__] setter; both are modelled ([get], [assign]).
    - [require] of a [.json] file and [JSON.stringify] are each other's
      inverse on these documents, so a file's content is the document.
    - Paths are the strings the code passes to [fs] and [require]; the
      world says which of them name a directory or a file.
    - An [async] method is a computation on the world that returns or
      throws.  The tasks given to [Promise.all] are not cancelled when one
      of them rejects: the awaiting caller resumes at the first rejection
      and the other tasks run on to their end.  The world of a computation
      is the one reached when everything it started has finished
      ([settled]); what holds of it holds at the return of the call for the
      log and for every file that no task was still writing.  The tasks of
      one call run here in list order. *)

From Stdlib Require Import String Ascii List ZArith NArith Bool Lia.
From stdpp Require Import base option list gmap strings.

Import ListNotations.
Local Open Scope string_scope.
Local Open Scope list_scope.

(** ** JSON documents and JavaScript objects *)

Module JS.

#[warnings="-register-all"] Inductive value : Type :=
| VNull
| VBool (b : bool)
| VNum (n : Z)
| VStr (s : string)
| VObj (ps : list (string * value)).

(** The own properties of an object, in enumeration order. *)
Definition props : Type := list (string * value).

(** An own property, or none. *)
Definition slot : Type := option value.

Definition keys (o : props) : list string := map fst o.

(** The own property [k] of an object: [o[k]] when
    [Object.prototype.hasOwnProperty.call(o, k)], as for the keys that
    [Object.keys(o)] enumerates. *)
Fixpoint get_own (o : props) (k : string) : slot :=
  match o with
  | [] => None
  | (k', v) :: o' => if String.eqb k' k then Some v else get_own o' k
  end.

Definition has_own (o : props) (k : string) : bool :=
  match get_own o k with Some _ => true | None => false end.

(** *** Enumeration order of property keys *)

Definition digit_of (c : ascii) : option N :=
  let n := N_of_ascii c in
  if ((48 <=? n) && (n <=? 57))%N then Some (n - 48)%N else None.

Fixpoint digits_value (cs : list ascii) (acc : N) : option N :=
  match cs with
  | [] => Some acc
  | c :: cs' =>
      match digit_of c with
      | Some d => digits_value cs' (10 * acc + d)%N
      | None => None
      end
  end.

(** A key is an array index when it is the canonical decimal form of an
    integer below 2^32 - 1. *)
Definition array_index (k : string) : option N :=
  match list_ascii_of_string k with
  | [] => None
  | c :: cs =>
      if Ascii.eqb c "0"%char && negb (Nat.eqb (length cs) 0) then None
      else match digits_value (c :: cs) 0%N with
           | Some n => if (n <? 4294967295)%N then Some n else None
           | None => None
           end
  end.

(** Does a new key [k] enumerate before the existing key [k']? *)
Definition key_before (k k' : string) : bool :=
  match array_index k, array_index k' with
  | Some n, Some n' => (n <? n')%N
  | Some _, None => true
  | None, _ => false
  end.

Fixpoint replace_own (k : string) (v : value) (o : props) : props :=
  match o with
  | [] => []
  | (k', v') :: o' =>
      if String.eqb k' k then (k, v) :: o' else (k', v') :: replace_own k v o'
  end.

Fixpoint insert_own (k : string) (v : value) (o : props) : props :=
  match o with
  | [] => [(k, v)]
  | (k', v') :: o' =>
      if key_before k k' then (k, v) :: (k', v') :: o'
      else (k', v') :: insert_own k v o'
  end.

(** The computed member [{[k]: v}] and the definition of a spread
    property: an existing property keeps its place, a new one takes the
    place its key enumerates at. *)
Definition set_prop (k : string) (v : value) (o : props) : props :=
  if has_own o k then replace_own k v o else insert_own k v o.

(** *** Property reads and assignments through [Object.prototype] *)

(** The function-valued members every object inherits. *)
Definition prototype_methods : list string :=
  [ "constructor"; "hasOwnProperty"; "isPrototypeOf"; "propertyIsEnumerable";
    "toLocaleString"; "toString"; "valueOf";
    "__defineGetter__"; "__defineSetter__"; "__lookupGetter__";
    "__lookupSetter__" ].

(** What a property read [o[k]] yields: [undefined], the value of an own
    property, an inherited function, or [Object.prototype] itself (the
    inherited [__proto__] getter). *)
Inductive reading : Type :=
| Undefined
| Own (v : value)
| Method (name : string)
| Prototype.

(** [o[k]] on an object parsed from JSON. *)
Definition get (o : props) (k : string) : reading :=
  match get_own o k with
  | Some v => Own v
  | None =>
      if String.eqb k "__proto__" then Prototype
      else if existsb (String.eqb k) prototype_methods then Method k
      else Undefined
  end.

(** [o[k] = v] on an object that never had an own [__proto__] (one that
    was built by assignments only): the key [__proto__] reaches the
    inherited setter, which creates no own property; every other key is
    set as an own property. *)
Definition assign (k : string) (v : value) (o : props) : props :=
  if String.eqb k "__proto__" then o else set_prop k v o.

(** [{...dst, ...src}], given the object built so far. *)
Definition spread (src dst : props) : props :=
  fold_left (fun acc kv => set_prop (fst kv) (snd kv) acc) src dst.

(** The object literal [{ ...a, ...b }]. *)
Definition spread2 (a b : props) : props := spread b (spread a []).

(** *** Truthiness, [typeof], lodash's [isObject] and [isEqual] *)

Definition truthy (x : reading) : bool :=
  match x with
  | Undefined => false
  | Own VNull => false
  | Own (VBool b) => b
  | Own (VNum n) => negb (Z.eqb n 0)
  | Own (VStr s) => negb (Nat.eqb (String.length s) 0)
  | Own (VObj _) => true
  | Method _ => true
  | Prototype => true
  end.

(** lodash's [isObject]: objects and functions. *)
Definition isObject (x : reading) : bool :=
  match x with
  | Own (VObj _) => true
  | Method _ => true
  | Prototype => true
  | _ => false
  end.

(** Deep equality: scalars by [===], objects by the same number of own keys
    and equal values under every key, whatever the order. *)
Fixpoint isEqual (a b : value) {struct a} : bool :=
  match a, b with
  | VNull, VNull => true
  | VBool x, VBool y => Bool.eqb x y
  | VNum x, VNum y => Z.eqb x y
  | VStr x, VStr y => String.eqb x y
  | VObj pa, VObj pb =>
      Nat.eqb (length pa) (length pb) &&
      (fix all (l : list (string * value)) : bool :=
         match l with
         | [] => true
         | (k, va) :: l' =>
             match get_own pb k with
             | Some vb => isEqual va vb && all l'
             | None => false
             end
         end) pa
  | _, _ => false
  end.

(** [isEqual(value, base[key])] on what the read yields.  A function
    equals no JSON value; [Object.prototype] has no enumerable key and the
    constructor of a plain object, so it equals the empty object and no
    other. *)
Definition isEqual_slot (a : value) (b : reading) : bool :=
  match b with
  | Own b' => isEqual a b'
  | Prototype => match a with VObj [] => true | _ => false end
  | Method _ => false
  | Undefined => false
  end.

(** lodash's [transform] over an object, with the accumulator the iteratee
    updates. *)
Definition transform {R : Type} (obj : props)
    (iteratee : R -> value -> string -> R) (accumulator : R) : R :=
  fold_left (fun result kv => iteratee result (snd kv) (fst kv)) obj accumulator.

End JS.

Import JS.

(** ** src/util.ts: [diffObjects] *)

(** [diffObjects(base, obj)].  The recursion swaps its arguments and goes
    through property reads, so it is written with fuel; [None] is fuel
    running out.  [transform] over an inherited function or over
    [Object.prototype] finds no enumerable key and gives the empty
    object. *)
Fixpoint diffObjects_fuel (fuel : nat) (base obj : props) : option props :=
  match fuel with
  | O => None
  | S fuel' =>
      transform obj
        (fun result value key =>
           match result with
           | None => None
           | Some result =>
               if negb (isEqual_slot value (get base key)) then
                 if negb (truthy (get base key)) then
                   match value, get base key with
                   | VObj pv, Own (VObj pb) =>
                       match diffObjects_fuel fuel' pv pb with
                       | Some d => Some (assign key (VObj d) result)
                       | None => None
                       end
                   | VObj _, (Method _ | Prototype) =>
                       Some (assign key (VObj []) result)
                   | _, _ => Some (assign key value result)
                   end
                 else Some result
               else Some result
           end)
        (Some [])
  end.

Fixpoint value_depth (v : value) : nat :=
  match v with
  | VObj ps =>
      S ((fix go (l : list (string * value)) : nat :=
            match l with
            | [] => 0
            | (_, x) :: l' => Nat.max (value_depth x) (go l')
            end) ps)
  | _ => 0
  end.

Definition diffObjects (base obj : props) : props :=
  match diffObjects_fuel (S (value_depth (VObj base) + value_depth (VObj obj))) base obj with
  | Some d => d
  | None => []
  end.

(** ** Node's [path] module (POSIX) and [String.prototype.replace] *)

Module Path.

Definition is_slash (c : ascii) : bool := Ascii.eqb c "/"%char.

(** The scan of [dirname]: [r] holds the characters at indices [i], [i-1],
    ..., [1]; the answer is the index of the slash that ends the directory
    part. *)
Fixpoint dirname_end (r : list ascii) (i : nat) (matchedSlash : bool) : option nat :=
  match r with
  | [] => None
  | c :: r' =>
      if is_slash c then
        if matchedSlash then dirname_end r' (Nat.pred i) true else Some i
      else dirname_end r' (Nat.pred i) false
  end.

Definition dirname (path : string) : string :=
  match list_ascii_of_string path with
  | [] => "."
  | c0 :: tl =>
      match dirname_end (rev tl) (length tl) true with
      | None => if is_slash c0 then "/" else "."
      | Some e =>
          if is_slash c0 && Nat.eqb e 1 then "//"
          else string_of_list_ascii (firstn e (c0 :: tl))
      end
  end.

(** The scan of [basename]: [r] holds the characters at indices [i], ...,
    [0]; the answer is [(start, end)]. *)
Fixpoint basename_scan (r : list ascii) (i : nat) (matchedSlash : bool)
    (end_ : option nat) : nat * option nat :=
  match r with
  | [] => (0, end_)
  | c :: r' =>
      if is_slash c then
        if matchedSlash then basename_scan r' (Nat.pred i) matchedSlash end_
        else (S i, end_)
      else
        match end_ with
        | None => basename_scan r' (Nat.pred i) false (Some (S i))
        | Some _ => basename_scan r' (Nat.pred i) matchedSlash end_
        end
  end.

Definition basename (path : string) : string :=
  let cs := list_ascii_of_string path in
  match basename_scan (rev cs) (Nat.pred (length cs)) true None with
  | (start, Some e) => string_of_list_ascii (skipn start (firstn e cs))
  | (_, None) => EmptyString
  end.

End Path.

(** [s.replace(pat, rep)] with a string pattern: the first occurrence. *)
Fixpoint replace (pat rep s : string) : string :=
  if String.prefix pat s then
    rep +:+ String.substring (String.length pat) (String.length s - String.length pat) s
  else
    match s with
    | EmptyString => EmptyString
    | String c s' => String c (replace pat rep s')
    end.

(** ** The world of a run: file system, provider and log *)

Inductive exn : Type :=
| TypeError (msg : string)
| ModuleNotFound (path : string)
| Rejected (reason : string)
| ProviderError (reason : string).

Inductive result (A : Type) : Type :=
| Ok (a : A)
| Throw (e : exn).
Arguments Ok {A} a.
Arguments Throw {A} e.

Inductive event : Type :=
| LogInfo (msg : string)
| LogError (msg : string) (cause : exn)
| Translate (text lang : string).

(** Directories with the names [fs.readdir] reports, files with their
    documents, and what was logged and asked of the provider, oldest
    first. *)
Record world : Type := World {
  w_dirs : gmap string (list string);
  w_files : gmap string props;
  w_log : list event
}.

(** A computation of the service: it runs in a world, changes it, and
    returns or throws.  An [async] function is the same thing here; its
    promise is settled with the result. *)
Definition M (A : Type) : Type := world -> result A * world.

Definition ret {A : Type} (a : A) : M A := fun w => (Ok a, w).

Definition throw {A : Type} (e : exn) : M A := fun w => (Throw e, w).

Definition bind {A B : Type} (m : M A) (k : A -> M B) : M B :=
  fun w =>
    match m w with
    | (Ok a, w') => k a w'
    | (Throw e, w') => (Throw e, w')
    end.

Declare Scope js_scope.
Delimit Scope js_scope with js.
Notation "x <- c ;; k" := (bind c (fun x => k))
  (at level 100, c at next level, right associativity) : js_scope.
Notation "c ;;; k" := (bind c (fun _ => k))
  (at level 100, right associativity) : js_scope.
Local Open Scope js_scope.

(** [try { body } catch (e) { handler(e) }] *)
Definition try_catch {A : Type} (body : M A) (handler : exn -> M A) : M A :=
  fun w =>
    match body w with
    | (Ok a, w') => (Ok a, w')
    | (Throw e, w') => handler e w'
    end.

Definition emit (ev : event) : M unit :=
  fun w => (Ok tt, World (w_dirs w) (w_files w) (w_log w ++ [ev])).

(** [Promise.all(tasks)]: every task has been started and none is
    cancelled, so each one runs to its end whatever the others do; the
    result is the list of their values, or a rejection when a task fails.
    Tasks run here in list order and the rejection is that of the first
    task in the list that fails (in JavaScript, of the first in time).
    The awaiting caller resumes at that first rejection, while writes of
    the other tasks can still be under way; the world given here is the one
    reached when all the tasks have settled. *)
Fixpoint promise_all {A : Type} (tasks : list (M A)) : M (list A) :=
  fun w =>
    match tasks with
    | [] => (Ok [], w)
    | t :: ts =>
        let (r, w1) := t w in
        let (rs, w2) := promise_all ts w1 in
        (match r, rs with
         | Throw e, _ => Throw e
         | Ok _, Throw e => Throw e
         | Ok a, Ok l => Ok (a :: l)
         end, w2)
    end.

(** The world once everything a call started has finished: the world
    component of its outcome.  When no task of the call was rejected this
    is also the world at its return.  After a rejection the caller has
    resumed while the surviving tasks were still writing: what they write
    is complete in the settled world and can be missing or incomplete at
    the return; the log, and every file that no surviving task writes, are
    the same in both. *)
Definition settled {A : Type} (outcome : result A * world) : world := snd outcome.

(** *** [fs] and [require] *)

Definition existsSync (path : string) (w : world) : bool :=
  match w_dirs w !! path, w_files w !! path with
  | None, None => false
  | _, _ => true
  end.

Definition isDirectory (path : string) (w : world) : bool :=
  match w_dirs w !! path with
  | Some _ => true
  | None => false
  end.

(** [require(path)] of a JSON file named by the path [fs] knows it under
    and not loaded before in this process: the file is read and parsed.
    (Node resolves a bare name against [node_modules] and answers a second
    load of a path from its module cache; the service loads each path once
    per reference.) *)
Definition require (path : string) : M props :=
  fun w =>
    match w_files w !! path with
    | Some doc => (Ok doc, w)
    | None => (Throw (ModuleNotFound path), w)
    end.

Definition add_name (name : string) (names : list string) : list string :=
  if existsb (String.eqb name) names then names else names ++ [name].

(** Enter [path] in the listing of its parent directory, when the world
    has that directory. *)
Definition link (path : string) (dirs : gmap string (list string)) :
    gmap string (list string) :=
  match dirs !! Path.dirname path with
  | Some names => <[Path.dirname path := add_name (Path.basename path) names]> dirs
  | None => dirs
  end.

(** [fs.mkdir(path, { recursive: true })]: [None] is an error. *)
Fixpoint mkdir_p (fuel : nat) (path : string) (w : world) : option world :=
  match w_dirs w !! path with
  | Some _ => Some w
  | None =>
      match w_files w !! path with
      | Some _ => None
      | None =>
          match fuel with
          | O => None
          | S fuel' =>
              match mkdir_p fuel' (Path.dirname path) w with
              | Some w' =>
                  Some (World (<[path := []]> (link path (w_dirs w')))
                              (w_files w') (w_log w'))
              | None => None
              end
          end
      end
  end.

(** [fs.writeFile(path, data)]: the parent directory must exist and [path]
    must not be a directory; [None] is an error. *)
Definition fs_writeFile (path : string) (data : props) (w : world) : option world :=
  match w_dirs w !! path, w_dirs w !! Path.dirname path with
  | None, Some _ =>
      Some (World (link path (w_dirs w)) (<[path := data]> (w_files w)) (w_log w))
  | _, _ => None
  end.

(** ** src/util.ts: [createDir], [dirFiles], [writeFile] *)

Definition createDir (path : string) : M unit :=
  fun w =>
    match mkdir_p (S (String.length path)) path w with
    | Some w' => (Ok tt, w')
    | None => (Throw (Rejected ("Failed to create directory " +:+ path)), w)
    end.

Definition dirFiles (path : string) : M (list string) :=
  fun w =>
    match w_dirs w !! path with
    | Some files => (Ok files, w)
    | None => (Throw (Rejected ("Failed to acquire file listing in " +:+ path)), w)
    end.

Definition writeFile (path : string) (data : props) : M unit :=
  fun w =>
    match fs_writeFile path data w with
    | Some w' => (Ok tt, w')
    | None => (Throw (Rejected ("Failed to save " +:+ path)), w)
    end.

(** ** src/lib/translate.ts: [TranslateService] *)

Definition MISSING_TRANSLATION : string := "***MISSING TRANSLATION***".

Record TranslateReference : Type := {
  ref_path : string;
  ref_inject : option string
}.

Record TranslateServiceConfig : Type := {
  languages : option (list string);
  maxLength : Z;
  projectId : string;
  reference : list TranslateReference;
  retranslate : bool;
  root : string
}.

Record FileDetails : Type := {
  lang : string;
  path : string
}.

(** What [getDirectoryFiles] and [getJSONFiles] resolve with. *)
Record Resolved : Type := {
  result_ : list FileDetails;
  referenceLanguage : string
}.

(** What [getTranslations] resolves with, when it is not [null]. *)
Record Translations : Type := {
  results : props;
  translated : bool
}.

(** The service: its configuration and the provider client, whose
    [translate(text, lang)] answers with the translation or throws. *)
Record TranslateService : Type := {
  config : TranslateServiceConfig;
  googleTranslate : string -> string -> result string
}.

Definition dquote : string := String (Ascii.ascii_of_nat 34) EmptyString.

Definition log_info (msg : string) : M unit := emit (LogInfo msg).

Definition log_error (msg : string) (e : exn) : M unit := emit (LogError msg e).

(** [await this.googleTranslate.translate(item, lang)] *)
Definition translate (this : TranslateService) (item lang : string) : M string :=
  fun w =>
    (googleTranslate this item lang,
     World (w_dirs w) (w_files w) (w_log w ++ [Translate item lang])).

(** [[...new Set(xs)]]: the first occurrence of each element, in order. *)
Fixpoint dedup (seen xs : list string) : list string :=
  match xs with
  | [] => []
  | x :: xs' =>
      if existsb (String.eqb x) seen then dedup seen xs'
      else x :: dedup (x :: seen) xs'
  end.

(** [this.config.languages.map(f)]: a [TypeError] when no languages were
    configured. *)
Definition config_languages_map {A : Type} (this : TranslateService)
    (f : string -> A) : M (list A) :=
  match languages (config this) with
  | Some ls => ret (map f ls)
  | None => throw (TypeError "Cannot read properties of undefined (reading 'map')")
  end.

Section Service.

Variable this : TranslateService.

(** [getTranslations]: the branch of the loop body for a string [item]
    under [key].  [results] is the object the method declares before the
    loop; nothing is ever assigned to it. *)
Definition stringBranch (results : props) (key item lang : string) :
    M (option Translations) :=
  if (Z.of_nat (String.length item) >? maxLength (config this))%Z then
    ret (Some {| results := set_prop key (VStr MISSING_TRANSLATION) (spread results []);
                 translated := retranslate (config this) |})
  else
    (log_info ("Translating " +:+ dquote +:+ item +:+ dquote +:+ " to " +:+ lang);;;
     translation <- translate this item lang;;
     ret (Some {| results := set_prop key (VStr translation) (spread results []);
                  translated := true |})).

(** The branch for any other [item], given the recursive call on it. *)
Definition nestedBranch (results : props) (key : string)
    (walk : M (option Translations)) : M (option Translations) :=
  (val <- walk;;
   match val with
   | Some val =>
       ret (Some {| results := set_prop key (VBool (translated val)) (spread results []);
                    translated := translated val |})
   | None => throw (TypeError "Cannot read properties of null (reading 'translated')")
   end).

(** The loop over [Object.keys(obj)] returns from every branch of its body,
    so the body runs for the first key only; [None] is the [null] returned
    below the loop.  [Object.keys] of a string lists its indices, of a
    number or a boolean nothing, and throws on [null]. *)
Fixpoint getTranslations (obj : value) (lang : string) {struct obj} :
    M (option Translations) :=
  let results : props := [] in
  match obj with
  | VObj [] => ret None
  | VObj ((key, item) :: _) =>
      match item with
      | VStr s => stringBranch results key s lang
      | _ => nestedBranch results key (getTranslations item lang)
      end
  | VStr EmptyString => ret None
  | VStr (String c _) => stringBranch results "0" (String c EmptyString) lang
  | VBool _ | VNum _ => ret None
  | VNull => throw (TypeError "Cannot convert undefined or null to object")
  end.

(** The callback of [translations.map] in [acquireMissingTranslations]:
    the work for one target file. *)
Definition translateTarget (base : props) (translation : FileDetails) : M unit :=
  let lang := lang translation in
  let pathh := path translation in
  (original <- require pathh;;
   updates <- getTranslations (VObj (diffObjects base original)) lang;;
   match updates with
   | Some updates => writeFile pathh (spread2 (results updates) original)
   | None => throw (TypeError "Cannot read properties of null (reading 'results')")
   end).

Definition targetPath (baseFile : FileDetails) (isDir : bool) (x : string) : string :=
  if isDir then
    Path.dirname (Path.dirname (path baseFile)) +:+ "/" +:+ x +:+ "/"
      +:+ Path.basename (path baseFile)
  else
    Path.dirname (path baseFile) +:+ "/" +:+ x +:+ ".json".

(** The entry of [translations] for the language [x]; its [output] field
    is never read and is left out. *)
Definition target (baseFile : FileDetails) (isDir : bool) (x : string) : FileDetails :=
  {| lang := x; path := targetPath baseFile isDir x |}.

Definition acquireMissingTranslations (baseFile : FileDetails)
    (languages : list string) (isDir : bool) : M unit :=
  try_catch
    (base <- require (path baseFile);;
     let translations := map (target baseFile isDir) languages in
     promise_all (map (translateTarget base) translations);;;
     ret tt)
    (fun e => log_error "Failed to acquire missing translations" e).

Definition getJSONFiles (reference : TranslateReference) : M Resolved :=
  let referenceLanguage := replace ".json" EmptyString (Path.basename (ref_path reference)) in
  (files <- dirFiles (Path.dirname (ref_path reference));;
   let result :=
     map (fun x => {| lang := replace ".json" EmptyString (Path.basename x); path := x |})
         files in
   ret {| result_ := result; referenceLanguage := referenceLanguage |}).

Definition getDirectoryFiles (reference : TranslateReference) : M Resolved :=
  (directories <- dirFiles (Path.dirname (ref_path reference));;
   files <- promise_all (map dirFiles directories);;
   let result :=
     concat
       (map (fun entry : string * list string =>
               let (pathh, listing) := entry in
               map (fun file => {| lang := Path.dirname pathh; path := file |}) listing)
            (combine directories files)) in
   ret {| result_ := result; referenceLanguage := Path.basename (ref_path reference) |}).

(** The callback of [map] is synchronous: every [existsSync] is answered in
    the world the method is entered in. *)
Definition createEmptyFolders (reference : TranslateReference) : M unit :=
  fun w =>
    (tasks <- config_languages_map this
       (fun language =>
          let folder := Path.dirname (ref_path reference) +:+ "/" +:+ language in
          if negb (existsSync folder w) then createDir folder else ret tt);;
     promise_all tasks;;;
     ret tt) w.

Definition createEmptyFiles (reference : TranslateReference) (baseFile : FileDetails)
    (isDir : bool) : M unit :=
  fun w =>
    (tasks <- config_languages_map this
       (fun language =>
          let fileToCheck :=
            if isDir then
              Path.dirname (ref_path reference) +:+ "/" +:+ language +:+ "/"
                +:+ Path.basename (path baseFile)
            else Path.dirname (ref_path reference) +:+ "/" +:+ language +:+ ".json" in
          if negb (existsSync fileToCheck w) then writeFile fileToCheck [] else ret tt);;
     promise_all tasks;;;
     ret tt) w.

(** The effective languages of a reference. *)
Definition effectiveLanguages (files : Resolved) : list string :=
  match languages (config this) with
  | Some ls => ls
  | None => dedup [] (map lang (result_ files))
  end.

Definition runReference (reference : TranslateReference) : M unit :=
  fun w =>
    let isDir := existsSync (ref_path reference) w && isDirectory (ref_path reference) w in
    (files <- (if isDir then getDirectoryFiles reference else getJSONFiles reference);;
     let baseFiles :=
       List.filter (fun x => String.eqb (lang x) (referenceLanguage files)) (result_ files) in
     let languages := effectiveLanguages files in
     (if isDir then createEmptyFolders reference else ret tt);;;
     promise_all (map (fun x => createEmptyFiles reference x isDir) baseFiles);;;
     promise_all (map (fun x => acquireMissingTranslations x languages isDir) baseFiles);;;
     ret tt) w.

Definition run : M unit :=
  (promise_all (map runReference (reference (config this)));;;
   ret tt).

End Service.

(** * Vocabulary of the properties *)

(** ** Gap trees *)

(** The test that guards the assignment in the iteratee of [diffObjects]. *)
Definition is_gap (base : props) (key : string) (value : JS.value) : bool :=
  negb (isEqual_slot value (get base key)) && negb (truthy (get base key)).

(** What the iteratee does to the accumulator when the recursive branch is
    left out. *)
Definition keep_gap (base result : props) (kv : string * JS.value) : props :=
  if is_gap base (fst kv) (snd kv) then assign (fst kv) (snd kv) result else result.

(** ** Worlds *)

(** [w'] is [w] with more log entries. *)
Definition extends (w w' : world) : Prop :=
  w_dirs w' = w_dirs w /\ w_files w' = w_files w /\ exists evs, w_log w' = w_log w ++ evs.

(** [fs.writeFile] accepts [p]. *)
Definition writable (p : string) (w : world) : Prop :=
  w_dirs w !! p = None /\ is_Some (w_dirs w !! Path.dirname p).

(** The same paths are directories in both worlds. *)
Definition same_dirs (w w' : world) : Prop :=
  forall q, is_Some (w_dirs w' !! q) <-> is_Some (w_dirs w !! q).

(** The leaf a walk comes to: the walk handles the first key of a node
    only, goes down when the value there is a nested tree, and stops at
    the first string it meets (a string walked as a node is taken
    character by character). *)
Fixpoint first_leaf (obj : value) : option string :=
  match obj with
  | VStr (String c _) => Some (String c EmptyString)
  | VObj ((_, VStr s) :: _) => Some s
  | VObj ((_, item) :: _) => first_leaf item
  | _ => None
  end.

(** The events of a walk, started with an empty log. *)
Definition walk_events (this : TranslateService) (obj : value) (lang : string) :
    list event :=
  w_log (snd (getTranslations this obj lang (World ∅ ∅ []))).

(** ** A sample installation

    A provider that knows two phrases, and a single-file layout with an
    English base file. *)

Module Sample.

Definition provider (text lang : string) : result string :=
  if String.eqb lang "fr" then
    if String.eqb text "Hello" then Ok "Bonjour"
    else if String.eqb text "World" then Ok "Monde"
    else Throw (ProviderError "unavailable")
  else Throw (ProviderError "unavailable").

Definition settings (languages : option (list string)) (maxLength : Z)
    (retranslate : bool) (path : string) : TranslateServiceConfig :=
  {| languages := languages;
     maxLength := maxLength;
     projectId := "sample";
     reference := [ {| ref_path := path; ref_inject := None |} ];
     retranslate := retranslate;
     root := "/i18n" |}.

Definition service (languages : option (list string)) (maxLength : Z)
    (retranslate : bool) (path : string) : TranslateService :=
  {| config := settings languages maxLength retranslate path;
     googleTranslate := provider |}.

(** The service of the scenarios: French wanted, at most 100 characters. *)
Definition fr100 : TranslateService := service (Some ["fr"]) 100 false "/i18n/en.json".

Definition enFile : FileDetails := {| lang := "en"; path := "/i18n/en.json" |}.

(** [/i18n/en.json] holding [en] and [/i18n/fr.json] holding [fr]. *)
Definition disk (en fr : props) : world :=
  World {[ "/i18n" := ["en.json"; "fr.json"] ]}
        {[ "/i18n/en.json" := en; "/i18n/fr.json" := fr ]}
        [].

(** The same with a German file beside the French one. *)
Definition disk3 (en fr de : props) : world :=
  World {[ "/i18n" := ["de.json"; "en.json"; "fr.json"] ]}
        {[ "/i18n/en.json" := en; "/i18n/fr.json" := fr; "/i18n/de.json" := de ]}
        [].

(** A directory layout: [/i18n] with the folders [en], [fr] and [de], each
    holding [common.json].  The process runs in [/i18n], so the folders are
    found under their bare names too. *)
Definition tree : world :=
  World {[ "/i18n" := ["en"; "fr"; "de"];
           "/i18n/en" := ["common.json"];
           "/i18n/fr" := ["common.json"];
           "/i18n/de" := ["common.json"];
           "en" := ["common.json"];
           "fr" := ["common.json"];
           "de" := ["common.json"] ]}
        {[ "/i18n/en/common.json" := [("Title", VStr "Hello")];
           "/i18n/fr/common.json" := [];
           "/i18n/de/common.json" := [] ]}
        [].

(** The same layout seen from another working directory. *)
Definition tree_elsewhere : world :=
  World {[ "/i18n" := ["en"; "fr"; "de"];
           "/i18n/en" := ["common.json"];
           "/i18n/fr" := ["common.json"];
           "/i18n/de" := ["common.json"] ]}
        (w_files tree)
        [].

(** A single-file layout with a folder [old] beside the language files. *)
Definition disk_stray : world :=
  World {[ "/i18n" := ["en.json"; "fr.json"; "old"];
           "/i18n/old" := [] ]}
        {[ "/i18n/en.json" := [("Title", VStr "Hello")];
           "/i18n/fr.json" := [] ]}
        [].

(** The leaf of the length scenario: 250 characters. *)
Definition leaf250 : string := string_of_list_ascii (repeat "x"%char 250).

End Sample.

(** ** Further vocabulary *)

(** A document as [JSON.parse] builds it: no object in it has two
    properties of the same name. *)
Fixpoint wf_value (v : value) : Prop :=
  match v with
  | VObj ps =>
      NoDup (keys ps) /\
      (fix all (l : list (string * value)) : Prop :=
         match l with
         | [] => True
         | (_, x) :: l' => wf_value x /\ all l'
         end) ps
  | _ => True
  end.

(** The message [getTranslations] logs before it asks the provider. *)
Definition translating (item lang : string) : string :=
  "Translating " +:+ dquote +:+ item +:+ dquote +:+ " to " +:+ lang.

(** Every file of [w] is in [w'] with the same entries, and [w'] has no
    other file. *)
Definition same_entries (w w' : world) : Prop :=
  forall q : string,
    match (w_files w !! q : option props) with
    | Some doc => exists doc' : props, w_files w' !! q = Some doc' /\ doc' ≡ₚ doc
    | None => w_files w' !! q = None
    end.

(** Every file of [w] has properties of distinct names. *)
Definition wf_files (w : world) : Prop :=
  map_Forall (fun _ doc => NoDup (keys doc)) (w_files w).

(** The file [createEmptyFiles] checks for a language. *)
Definition fileToCheck (reference : TranslateReference) (baseFile : FileDetails)
    (isDir : bool) (language : string) : string :=
  if isDir then
    Path.dirname (ref_path reference) +:+ "/" +:+ language +:+ "/"
      +:+ Path.basename (path baseFile)
  else Path.dirname (ref_path reference) +:+ "/" +:+ language +:+ ".json".

(** The folder [createEmptyFolders] checks for a language. *)
Definition folderToCheck (reference : TranslateReference) (language : string) : string :=
  Path.dirname (ref_path reference) +:+ "/" +:+ language.

(** The task [createEmptyFiles] and [createEmptyFolders] start for a
    language: [create] the [target] unless it exists in [w0], the world the
    method was entered in. *)
Definition createIfMissing (create : string -> M unit) (w0 : world) (target : string) :
    M unit :=
  if negb (existsSync target w0) then create target else ret tt.

(** A plain language code: not empty, without [/] and without [.]. *)
Definition is_code (s : string) : bool :=
  negb (Nat.eqb (String.length s) 0)
  && forallb (fun c => negb (Path.is_slash c) && negb (Ascii.eqb c "."%char))
       (list_ascii_of_string s).

(** From [w] to [w'] no entry of a file was added, removed or changed, and
    the files that are new are empty documents. *)
Definition harmless (w w' : world) : Prop :=
  wf_files w ->
  wf_files w'
  /\ (forall (q : string) (doc : props),
        w_files w !! q = Some doc ->
        exists doc' : props, w_files w' !! q = Some doc' /\ doc' ≡ₚ doc)
  /\ (forall (q : string) (doc' : props),
        w_files w' !! q = Some doc' ->
        (exists doc : props, w_files w !! q = Some doc /\ doc' ≡ₚ doc) \/ doc' = []).

(** The log entries that are provider calls, and those that are errors. *)
Definition is_call (ev : event) : bool :=
  match ev with Translate _ _ => true | _ => false end.

Definition is_error (ev : event) : bool :=
  match ev with LogError _ _ => true | _ => false end.

(** The base files [runReference] keeps of a resolution. *)
Definition baseFilesOf (files : Resolved) : list FileDetails :=
  List.filter (fun x => String.eqb (lang x) (referenceLanguage files)) (result_ files).

(** * Properties *)

(** Decidable side conditions on concrete data. *)
Ltac by_compute := apply (bool_decide_unpack _); vm_compute; exact I.

(** ** Objects: reading after writing *)

Section ObjectFacts.

Implicit Types (o src dst : props) (k : string) (v : value).

Lemma get_own_None o k : get_own o k = None <-> k ∉ keys o.
Proof.
  induction o as [|[k0 v0] o IH]; simpl.
  - split; [intros _; apply not_elem_of_nil | done].
  - rewrite not_elem_of_cons. destruct (String.eqb k0 k) eqn:E.
    + apply String.eqb_eq in E. split; [done | intros [H _]; congruence].
    + apply String.eqb_neq in E. rewrite IH. split; [intros H; split; congruence | tauto].
Qed.

Lemma get_own_elem o k v : get_own o k = Some v -> (k, v) ∈ o.
Proof.
  induction o as [|[k0 v0] o IH]; simpl; [done|].
  destruct (String.eqb k0 k) eqn:E.
  - apply String.eqb_eq in E. intros [= ->]. subst. apply elem_of_cons; auto.
  - intros H. apply elem_of_cons; auto.
Qed.

Lemma elem_get_own o k v : NoDup (keys o) -> (k, v) ∈ o -> get_own o k = Some v.
Proof.
  induction o as [|[k0 v0] o IH]; simpl; intros Hnd Hin.
  - by apply elem_of_nil in Hin.
  - apply NoDup_cons in Hnd as [Hk0 Hnd]. apply elem_of_cons in Hin as [[= -> ->]|Hin].
    + by rewrite String.eqb_refl.
    + destruct (String.eqb k0 k) eqn:E; [|auto].
      apply String.eqb_eq in E. subst k0. exfalso. apply Hk0.
      apply list_elem_of_fmap. by exists (k, v).
Qed.

Lemma get_own_replace_same k v o :
  has_own o k = true -> get_own (replace_own k v o) k = Some v.
Proof.
  unfold has_own. induction o as [|[k0 v0] o IH]; simpl; [done|].
  destruct (String.eqb k0 k) eqn:E; simpl.
  - by rewrite String.eqb_refl.
  - by rewrite E.
Qed.

Lemma get_own_replace_other k k' v o :
  k' <> k -> get_own (replace_own k v o) k' = get_own o k'.
Proof.
  intros Hne. induction o as [|[k0 v0] o IH]; simpl; [done|].
  destruct (String.eqb k0 k) eqn:E; simpl.
  - apply String.eqb_eq in E. subst k0.
    apply not_eq_sym, String.eqb_neq in Hne. by rewrite Hne.
  - by rewrite IH.
Qed.

Lemma get_own_insert_same k v o :
  get_own o k = None -> get_own (insert_own k v o) k = Some v.
Proof.
  induction o as [|[k0 v0] o IH]; simpl.
  - by rewrite String.eqb_refl.
  - destruct (String.eqb k0 k) eqn:E; [done|]. intros H.
    destruct (key_before k k0); simpl.
    + by rewrite String.eqb_refl.
    + rewrite E. auto.
Qed.

Lemma get_own_insert_other k k' v o :
  k' <> k -> get_own (insert_own k v o) k' = get_own o k'.
Proof.
  intros Hne. apply not_eq_sym, String.eqb_neq in Hne.
  induction o as [|[k0 v0] o IH]; simpl.
  - by rewrite Hne.
  - destruct (key_before k k0); simpl.
    + by rewrite Hne.
    + by rewrite IH.
Qed.

Lemma get_own_set_same k v o : get_own (set_prop k v o) k = Some v.
Proof.
  unfold set_prop. destruct (has_own o k) eqn:E.
  - by apply get_own_replace_same.
  - apply get_own_insert_same. unfold has_own in E. by destruct (get_own o k).
Qed.

Lemma get_own_set_other k k' v o :
  k' <> k -> get_own (set_prop k v o) k' = get_own o k'.
Proof.
  intros Hne. unfold set_prop. destruct (has_own o k).
  - by apply get_own_replace_other.
  - by apply get_own_insert_other.
Qed.

(** Spreading [src] over [dst]: keys of [src] take [src]'s value, the
    others keep [dst]'s. *)
Lemma get_own_spread_absent src dst k :
  k ∉ keys src -> get_own (spread src dst) k = get_own dst k.
Proof.
  unfold spread. revert dst. induction src as [|[k0 v0] src IH]; simpl; intros dst Hk; [done|].
  apply not_elem_of_cons in Hk as [Hne Hk].
  rewrite IH by done. by apply get_own_set_other.
Qed.

Lemma get_own_spread_present src dst k v :
  NoDup (keys src) -> get_own src k = Some v -> get_own (spread src dst) k = Some v.
Proof.
  unfold spread. revert dst.
  induction src as [|[k0 v0] src IH]; simpl; intros dst Hnd Hk; [done|].
  apply NoDup_cons in Hnd as [Hk0 Hnd].
  destruct (String.eqb k0 k) eqn:E.
  - apply String.eqb_eq in E. injection Hk as ->. subst k0.
    fold (spread src (set_prop k v dst)).
    rewrite get_own_spread_absent by done. apply get_own_set_same.
  - by apply IH.
Qed.

(** Assignment: the key [__proto__] leaves the own properties as they are. *)
Lemma get_own_assign_other k v o k' :
  k' <> k -> get_own (assign k v o) k' = get_own o k'.
Proof.
  intros Hne. unfold assign. destruct (String.eqb k "__proto__"); [done|].
  by apply get_own_set_other.
Qed.

Lemma get_own_assign_same k v o :
  k <> "__proto__" -> get_own (assign k v o) k = Some v.
Proof.
  intros Hne. unfold assign. apply String.eqb_neq in Hne. rewrite Hne.
  apply get_own_set_same.
Qed.

Lemma get_own_assign_proto v o k :
  get_own o "__proto__" = None -> get_own (assign k v o) "__proto__" = None.
Proof.
  intros Ho. unfold assign. destruct (String.eqb k "__proto__") eqn:E; [done|].
  apply String.eqb_neq in E. rewrite get_own_set_other; [done|]. congruence.
Qed.

(** An own property is what the read yields. *)
Lemma get_of_own o k v : get_own o k = Some v -> get o k = Own v.
Proof. intros H. unfold get. by rewrite H. Qed.

End ObjectFacts.

(** ** [diffObjects] *)

Section DiffObjects.

Implicit Types (base obj : props) (key : string) (value : value).

(** A falsy value is not an object, so the recursive branch of the iteratee
    is never entered. *)
Lemma falsy_not_object (x : reading) : truthy x = false -> isObject x = false.
Proof. by destruct x as [|[]| |]. Qed.

Lemma diffObjects_fuel_fold fuel base obj (acc : props) :
  fold_left
    (fun result kv =>
       match result with
       | None => None
       | Some result =>
           if negb (isEqual_slot (snd kv) (get base (fst kv))) then
             if negb (truthy (get base (fst kv))) then
               match snd kv, get base (fst kv) with
               | VObj pv, Own (VObj pb) =>
                   match diffObjects_fuel fuel pv pb with
                   | Some d => Some (assign (fst kv) (VObj d) result)
                   | None => None
                   end
               | VObj _, (Method _ | Prototype) =>
                   Some (assign (fst kv) (VObj []) result)
               | _, _ => Some (assign (fst kv) (snd kv) result)
               end
             else Some result
           else Some result
       end) obj (Some acc)
  = Some (fold_left (keep_gap base) obj acc).
Proof.
  revert acc. induction obj as [|[k v] obj IH]; intros acc; simpl; [done|].
  unfold keep_gap at 2, is_gap. simpl.
  destruct (isEqual_slot v (get base k)); simpl; [apply IH|].
  destruct (truthy (get base k)) eqn:Ht; simpl; [apply IH|].
  destruct v; try apply IH.
  destruct (get base k) as [|[]| |]; try apply IH; discriminate.
Qed.

(** With any fuel at all the function returns, and what it returns does not
    depend on the fuel. *)
Lemma diffObjects_fuel_total fuel base obj :
  diffObjects_fuel (S fuel) base obj = Some (fold_left (keep_gap base) obj []).
Proof. simpl. unfold transform. apply diffObjects_fuel_fold. Qed.

Lemma diffObjects_unfold base obj :
  diffObjects base obj = fold_left (keep_gap base) obj [].
Proof. unfold diffObjects. by rewrite diffObjects_fuel_total. Qed.

Lemma diffObjects_enough_fuel fuel base obj :
  diffObjects_fuel (S fuel) base obj = Some (diffObjects base obj).
Proof. by rewrite diffObjects_fuel_total, diffObjects_unfold. Qed.

Lemma keep_gap_absent base obj (acc : props) key :
  key ∉ keys obj -> get_own (fold_left (keep_gap base) obj acc) key = get_own acc key.
Proof.
  revert acc. induction obj as [|[k v] obj IH]; simpl; intros acc Hk; [done|].
  apply not_elem_of_cons in Hk as [Hne Hk]. rewrite IH by done.
  unfold keep_gap; simpl. destruct (is_gap base k v); [|done].
  by apply get_own_assign_other.
Qed.

Lemma keep_gap_present base obj (acc : props) key value :
  NoDup (keys obj) -> get_own obj key = Some value -> is_gap base key value = true ->
  key <> "__proto__" ->
  get_own (fold_left (keep_gap base) obj acc) key = Some value.
Proof.
  revert acc. induction obj as [|[k v] obj IH]; simpl; intros acc Hnd Hk Hgap Hp; [done|].
  apply NoDup_cons in Hnd as [Hk0 Hnd].
  destruct (String.eqb k key) eqn:E.
  - apply String.eqb_eq in E. injection Hk as ->. subst k.
    rewrite keep_gap_absent by done. unfold keep_gap; simpl. rewrite Hgap.
    by apply get_own_assign_same.
  - by apply IH.
Qed.

(** The assignment never gives the result an own [__proto__]. *)
Lemma keep_gap_proto base obj (acc : props) :
  get_own acc "__proto__" = None ->
  get_own (fold_left (keep_gap base) obj acc) "__proto__" = None.
Proof.
  revert acc. induction obj as [|[k v] obj IH]; simpl; intros acc Hacc; [done|].
  apply IH. unfold keep_gap; simpl. destruct (is_gap base k v); [|done].
  by apply get_own_assign_proto.
Qed.

Lemma diffObjects_proto base obj : get_own (diffObjects base obj) "__proto__" = None.
Proof. rewrite diffObjects_unfold. by apply keep_gap_proto. Qed.

(** The keys of a gap tree are keys of [obj], the second argument. *)
Lemma keep_gap_keys base obj (acc : props) key :
  key ∈ keys (fold_left (keep_gap base) obj acc) -> key ∈ keys acc \/ key ∈ keys obj.
Proof.
  revert acc. induction obj as [|[k v] obj IH]; simpl; intros acc Hk; [auto|].
  apply IH in Hk as [Hk|Hk]; [|right; apply elem_of_cons; auto].
  unfold keep_gap in Hk; simpl in Hk. destruct (is_gap base k v); [|auto].
  destruct (String.eq_dec key k) as [->|Hne]; [right; apply elem_of_cons; auto|].
  destruct (decide (key ∈ keys acc)) as [|Hn]; [auto|]. exfalso.
  apply get_own_None in Hn.
  assert (get_own (assign k v acc) key = None) as Hs
    by (by rewrite get_own_assign_other).
  by apply get_own_None in Hs.
Qed.

Lemma diffObjects_keys base obj key :
  key ∈ keys (diffObjects base obj) -> key ∈ keys obj.
Proof.
  rewrite diffObjects_unfold. intros H. apply keep_gap_keys in H as [H|H]; [|done].
  by apply elem_of_nil in H.
Qed.

(** A key of the target other than [__proto__] whose value is not deep-equal
    to what the base yields, and for which the base yields a falsy value,
    is in the result with the target's raw value; a falsy value is never an
    object, so the nested case does not occur. *)
Lemma diffObjects_falsy_base base target key value :
  NoDup (keys target) ->
  get_own target key = Some value ->
  isEqual_slot value (get base key) = false ->
  truthy (get base key) = false ->
  key <> "__proto__" ->
  get_own (diffObjects base target) key = Some value
  /\ isObject (Own value) && isObject (get base key) = false.
Proof.
  intros Hnd Hk Hne Hfalsy Hp. split.
  - rewrite diffObjects_unfold. apply keep_gap_present; [done..| |done].
    unfold is_gap. by rewrite Hne, Hfalsy.
  - rewrite (falsy_not_object _ Hfalsy). apply andb_false_r.
Qed.

End DiffObjects.

(** C4: in [diffObjects(base, target)] a key of the target whose value is
    not deep-equal to the base's value and whose base-side value is falsy
    should be in the result with the target's raw value.  The iteratee
    stores it with [result[key] = value], and for the key [__proto__] that
    assignment reaches the setter inherited from [Object.prototype]: the
    base that holds the empty string under [__proto__] and the target that
    holds ["x"] there meet every condition of the claim, and the result is
    the empty object. *)
Theorem diffObjects_loses_proto_key :
  let base := [("__proto__", VStr EmptyString)] in
  let target := [("__proto__", VStr "x")] in
  get_own target "__proto__" = Some (VStr "x")
  /\ get base "__proto__" = Own (VStr EmptyString)
  /\ isEqual_slot (VStr "x") (get base "__proto__") = false
  /\ truthy (get base "__proto__") = false
  /\ isObject (Own (VStr "x")) && isObject (get base "__proto__") = false
  /\ diffObjects base target = []
  /\ get_own (diffObjects base target) "__proto__" = None.
Proof. vm_compute. repeat split. Qed.

(** ** [getTranslations] *)

Section Walk.

Variable this : TranslateService.

Lemma value_ind_nested (P : value -> Prop) :
  P VNull -> (forall b, P (VBool b)) -> (forall n, P (VNum n)) -> (forall s, P (VStr s)) ->
  (forall ps, Forall (fun kv => P (snd kv)) ps -> P (VObj ps)) ->
  forall v, P v.
Proof.
  intros HN HB HZ HS HO. fix IH 1.
  intros [| | | |ps]; [apply HN | apply HB | apply HZ | apply HS |].
  apply HO. induction ps as [|[k x] ps IHps]; constructor; [apply IH | apply IHps].
Qed.

Lemma getTranslations_empty lang : getTranslations this (VObj []) lang = ret None.
Proof. reflexivity. Qed.

Lemma getTranslations_string key s rest lang :
  getTranslations this (VObj ((key, VStr s) :: rest)) lang = stringBranch this [] key s lang.
Proof. reflexivity. Qed.

Lemma getTranslations_nested key item rest lang :
  (forall s, item <> VStr s) ->
  getTranslations this (VObj ((key, item) :: rest)) lang
  = nestedBranch [] key (getTranslations this item lang).
Proof. intros H. destruct item; try reflexivity. by destruct (H s). Qed.

Lemma extends_refl w : extends w w.
Proof. split; [done|]. split; [done|]. exists []. by rewrite app_nil_r. Qed.

Lemma extends_trans w1 w2 w3 : extends w1 w2 -> extends w2 w3 -> extends w1 w3.
Proof.
  intros (Hd1 & Hf1 & e1 & Hl1) (Hd2 & Hf2 & e2 & Hl2).
  split; [congruence|]. split; [congruence|].
  exists (e1 ++ e2). by rewrite Hl2, Hl1, app_assoc.
Qed.

Lemma stringBranch_cases results key item lang w :
  (Z.of_nat (String.length item) > maxLength (config this))%Z /\
  stringBranch this results key item lang w
  = (Ok (Some {| results := set_prop key (VStr MISSING_TRANSLATION) (spread results []);
                 translated := retranslate (config this) |}), w)
  \/
  (Z.of_nat (String.length item) <= maxLength (config this))%Z /\
  stringBranch this results key item lang w
  = (match googleTranslate this item lang with
     | Ok translation =>
         Ok (Some {| results := set_prop key (VStr translation) (spread results []);
                     translated := true |})
     | Throw e => Throw e
     end,
     World (w_dirs w) (w_files w)
       (w_log w ++ [LogInfo ("Translating " +:+ dquote +:+ item +:+ dquote +:+ " to " +:+ lang);
                    Translate item lang])).
Proof.
  unfold stringBranch.
  destruct (Z.of_nat (String.length item) >? maxLength (config this))%Z eqn:E.
  - left. split; [lia | reflexivity].
  - right. split; [lia|].
    unfold bind, log_info, emit, translate, ret. simpl.
    rewrite <- app_assoc. simpl. by destruct (googleTranslate this item lang).
Qed.

Lemma world_eta w : World (w_dirs w) (w_files w) (w_log w ++ []) = w.
Proof. destruct w; simpl. by rewrite app_nil_r. Qed.

(** The walk neither reads nor changes the file system; its result and the
    events it appends are the same in every world, and every text it sends
    to the provider is within [maxLength]. *)
Lemma getTranslations_pure obj lang :
  exists r evs,
    (forall w, getTranslations this obj lang w
               = (r, World (w_dirs w) (w_files w) (w_log w ++ evs)))
    /\ (forall text l, Translate text l ∈ evs ->
          (Z.of_nat (String.length text) <= maxLength (config this))%Z).
Proof.
  assert (forall (r : result (option Translations)),
            exists r' evs,
              (forall w, (r, w) = (r', World (w_dirs w) (w_files w) (w_log w ++ evs)))
              /\ (forall text l, Translate text l ∈ evs ->
                    (Z.of_nat (String.length text) <= maxLength (config this))%Z)) as Hquiet.
  { intros r. exists r, []. split; [intros w; by rewrite world_eta|].
    intros text l H. by apply elem_of_nil in H. }
  assert (forall results key item l0,
            exists r evs,
              (forall w, stringBranch this results key item l0 w
                         = (r, World (w_dirs w) (w_files w) (w_log w ++ evs)))
              /\ (forall text l, Translate text l ∈ evs ->
                    (Z.of_nat (String.length text) <= maxLength (config this))%Z)) as Hleaf.
  { intros results key item l0.
    destruct (stringBranch_cases results key item l0 (World ∅ ∅ [])) as [[Hlen _]|[Hlen _]].
    - destruct (Hquiet (Ok (Some {| results := set_prop key (VStr MISSING_TRANSLATION)
                                                 (spread results []);
                                    translated := retranslate (config this) |})))
        as (r & evs & Hr & Hev).
      exists r, evs. split; [|done]. intros w. rewrite <- Hr.
      destruct (stringBranch_cases results key item l0 w) as [[_ ->]|[? _]]; [done | lia].
    - eexists _, _. split.
      + intros w. destruct (stringBranch_cases results key item l0 w) as [[? _]|[_ ->]];
          [lia | reflexivity].
      + intros text l H. apply elem_of_cons in H as [[=]|H].
        apply elem_of_cons in H as [[= -> ->]|H]; [done|]. by apply elem_of_nil in H. }
  revert lang. induction obj as [| b | n | s | ps IH] using value_ind_nested; intros lang.
  - apply Hquiet.
  - apply Hquiet.
  - apply Hquiet.
  - destruct s as [|c s]; [apply Hquiet | apply Hleaf].
  - destruct ps as [|[key item] rest]; [apply Hquiet|].
    apply Forall_cons in IH as [IHitem _]. simpl in IHitem.
    destruct (IHitem lang) as (r0 & evs & Hrun & Hev).
    assert (exists r, forall w,
              nestedBranch [] key (getTranslations this item lang) w
              = (r, World (w_dirs w) (w_files w) (w_log w ++ evs))) as [r Hr].
    { unfold nestedBranch, bind. destruct r0 as [[val|]|e].
      - eexists. intros w. rewrite Hrun. reflexivity.
      - eexists. intros w. rewrite Hrun. reflexivity.
      - eexists. intros w. rewrite Hrun. reflexivity. }
    destruct item; try (exists r, evs; split; [exact Hr | exact Hev]).
    apply Hleaf.
Qed.

Lemma getTranslations_extends obj lang w :
  extends w (snd (getTranslations this obj lang w)).
Proof.
  destruct (getTranslations_pure obj lang) as (r & evs & Hrun & _).
  rewrite Hrun. simpl. split; [done|]. split; [done|]. by exists evs.
Qed.


(** A walk appends its events to the log and does nothing else. *)
Lemma getTranslations_events obj lang w :
  getTranslations this obj lang w
  = (fst (getTranslations this obj lang (World ∅ ∅ [])),
     World (w_dirs w) (w_files w) (w_log w ++ walk_events this obj lang)).
Proof.
  unfold walk_events.
  destruct (getTranslations_pure obj lang) as (r & evs & Hrun & _).
  by rewrite !Hrun.
Qed.

(** A record returned for a node has exactly one entry, under the node's
    first key. *)
Lemma getTranslations_first_key ps lang w r w' :
  getTranslations this (VObj ps) lang w = (Ok (Some r), w') ->
  exists key item rest content,
    ps = (key, item) :: rest /\ results r = [(key, content)] /\
    match item with
    | VStr s => exists text, content = VStr text /\ forall s', item <> VObj s'
    | _ => exists sub, getTranslations this item lang w = (Ok (Some sub), w')
                       /\ content = VBool (translated sub)
                       /\ translated r = translated sub
    end.
Proof.
  destruct ps as [|[key item] rest]; [discriminate|]. intros Hrun.
  assert (forall x, set_prop key x (spread [] []) = [(key, x)]) as Hone by reflexivity.
  assert ((forall s, item <> VStr s) ->
          exists content,
            results r = [(key, content)] /\
            exists sub, getTranslations this item lang w = (Ok (Some sub), w')
                        /\ content = VBool (translated sub)
                        /\ translated r = translated sub) as Hnested.
  { intros Hns. rewrite getTranslations_nested in Hrun by done.
    unfold nestedBranch, bind in Hrun.
    destruct (getTranslations this item lang w) as [[[sub|]|e] w1]; try discriminate.
    injection Hrun as <- <-. rewrite Hone. eexists. split; [done|]. by exists sub. }
  destruct item as [| b | n | s | ps'].
  - destruct Hnested as (c & ? & ?); [done|]. by exists key, VNull, rest, c.
  - destruct Hnested as (c & ? & ?); [done|]. by exists key, (VBool b), rest, c.
  - destruct Hnested as (c & ? & ?); [done|]. by exists key, (VNum n), rest, c.
  - rewrite getTranslations_string in Hrun.
    destruct (stringBranch_cases [] key s lang w) as [[_ Hb]|[_ Hb]];
      rewrite Hb in Hrun.
    + injection Hrun as <- <-. rewrite Hone.
      exists key, (VStr s), rest, (VStr MISSING_TRANSLATION).
      split; [done|]. split; [done|]. by exists MISSING_TRANSLATION.
    + destruct (googleTranslate this s lang) as [t|e]; [|discriminate].
      injection Hrun as <- <-. rewrite Hone.
      exists key, (VStr s), rest, (VStr t). split; [done|]. split; [done|]. by exists t.
  - destruct Hnested as (c & ? & ?); [done|]. by exists key, (VObj ps'), rest, c.
Qed.

End Walk.

(** C2: the walk is said to handle every key of a node, so that the results
    hold an entry for each.  On the node [{"a": "Hello", "b": "World"}] the
    method returns from inside the loop at the first key: the results hold
    ["a"] only, there is no entry for ["b"], and the provider is never asked
    for ["World"]. *)
Theorem getTranslations_stops_at_first_key :
  let node := VObj [("a", VStr "Hello"); ("b", VStr "World")] in
  let run := getTranslations Sample.fr100 node "fr" (Sample.disk [] []) in
  (exists r, fst run = Ok (Some r)
             /\ results r = [("a", VStr "Bonjour")]
             /\ translated r = true
             /\ get_own (results r) "b" = None)
  /\ List.filter (fun ev => match ev with Translate _ _ => true | _ => false end)
       (w_log (snd run))
     = [Translate "Hello" "fr"].
Proof.
  split; [|reflexivity].
  exists {| results := [("a", VStr "Bonjour")]; translated := true |}.
  repeat split; reflexivity.
Qed.

(** *** Nested keys *)

(** C3: the content returned for a node should hold, for each key whose
    value was a nested tree, the boolean [translated] flag of that tree.
    On [{"a": {"x": "Hello"}, "b": {"y": "World"}}] the method returns from
    inside the loop at the first key: the content is [{"a": true}], with
    the flag under ["a"] as the claim says, and the nested key ["b"] has no
    entry at all, neither a flag nor a content mapping; its tree is never
    walked. *)
Theorem getTranslations_second_nested_key_lost :
  let node := [("a", VObj [("x", VStr "Hello")]); ("b", VObj [("y", VStr "World")])] in
  let run := getTranslations Sample.fr100 (VObj node) "fr" (Sample.disk [] []) in
  get_own node "b" = Some (VObj [("y", VStr "World")])
  /\ (exists r, fst run = Ok (Some r)
                /\ results r = [("a", VBool true)]
                /\ get_own (results r) "b" = None)
  /\ w_log (snd run)
     = [LogInfo (translating "Hello" "fr"); Translate "Hello" "fr"].
Proof.
  split; [reflexivity|]. split; [|reflexivity].
  exists {| results := [("a", VBool true)]; translated := true |}.
  repeat split; reflexivity.
Qed.

(** An entry the content has under a key whose value was a nested tree is
    the boolean [translated] flag of the walk of that tree, not the content
    mapping that walk produced. *)
Lemma nested_entry_is_flag (this : TranslateService) (node : props) (lang : string)
    (w w' : world) (r : Translations) (key : string) (nestedTree : props)
    (content : JS.value) :
  getTranslations this (VObj node) lang w = (Ok (Some r), w') ->
  get_own node key = Some (VObj nestedTree) ->
  get_own (results r) key = Some content ->
  exists sub,
    getTranslations this (VObj nestedTree) lang w = (Ok (Some sub), w')
    /\ content = VBool (translated sub)
    /\ content <> VObj (results sub).
Proof.
  intros Hrun Hnode Hentry.
  destruct (getTranslations_first_key this node lang w r w' Hrun)
    as (key0 & item & rest & content0 & -> & Hres & Hitem).
  rewrite Hres in Hentry. simpl in Hentry, Hnode.
  destruct (String.eqb key0 key); [|discriminate].
  injection Hentry as <-. injection Hnode as ->.
  destruct Hitem as (sub & Hsub & -> & _). exists sub. by repeat split.
Qed.

(** *** Leaves longer than [maxLength] *)

(** C7: every string leaf longer than [maxLength] should be kept from the
    provider and have the marker in its place, with the [translated] flag
    of the [retranslate] setting.  With [maxLength = 10] and [retranslate]
    off, the node [{"a": "Hello", "b": "A sentence of thirty characters"}]
    yields [{"a": "Bonjour"}] and the flag [true]: the method returns at the
    first key, so the long leaf under ["b"] is not replaced by the marker,
    it is not in the result at all.  The provider is not asked for it. *)
Theorem getTranslations_long_leaf_without_marker :
  let this := Sample.service (Some ["fr"]) 10 false "/i18n/en.json" in
  let long := "A sentence of thirty characters" in
  let node := [("a", VStr "Hello"); ("b", VStr long)] in
  let run := getTranslations this (VObj node) "fr" (Sample.disk [] []) in
  get_own node "b" = Some (VStr long)
  /\ (Z.of_nat (String.length long) > maxLength (config this))%Z
  /\ (exists r, fst run = Ok (Some r)
                /\ results r = [("a", VStr "Bonjour")]
                /\ get_own (results r) "b" = None
                /\ translated r = true
                /\ retranslate (config this) = false)
  /\ w_log (snd run)
     = [LogInfo (translating "Hello" "fr"); Translate "Hello" "fr"].
Proof.
  split; [reflexivity|]. split; [reflexivity|]. split; [|reflexivity].
  exists {| results := [("a", VStr "Bonjour")]; translated := true |}.
  repeat split; reflexivity.
Qed.

(** The length guard itself: a leaf longer than [maxLength] that the walk
    reaches gets the marker and the [retranslate] flag, with nothing asked
    or logged; and no walk ever sends such a text to the provider. *)
Lemma long_leaf_never_sent (this : TranslateService) (key s : string) (rest : props)
    (lang : string) (w : world) :
  (Z.of_nat (String.length s) > maxLength (config this))%Z ->
  getTranslations this (VObj ((key, VStr s) :: rest)) lang w
  = (Ok (Some {| results := [(key, VStr MISSING_TRANSLATION)];
                 translated := retranslate (config this) |}), w)
  /\ (forall obj lang' w0,
        Translate s lang' ∈ w_log (snd (getTranslations this obj lang' w0)) ->
        Translate s lang' ∈ w_log w0).
Proof.
  intros Hlong. split.
  - rewrite getTranslations_string.
    destruct (stringBranch_cases this [] key s lang w) as [[_ ->]|[? _]]; [done | lia].
  - intros obj lang' w0 Hin.
    destruct (getTranslations_pure this obj lang') as (r & evs & Hrun & Hev).
    rewrite Hrun in Hin. simpl in Hin. apply elem_of_app in Hin as [Hin|Hin]; [done|].
    apply Hev in Hin. lia.
Qed.

(** The scenario of 250 characters with [maxLength = 200] and [retranslate]
    on. *)
Example long_leaf_sample :
  getTranslations (Sample.service (Some ["fr"]) 200 true "/i18n/en.json")
    (VObj [("Title", VStr Sample.leaf250)]) "fr" (Sample.disk [] [])
  = (Ok (Some {| results := [("Title", VStr MISSING_TRANSLATION)]; translated := true |}),
     Sample.disk [] []).
Proof. vm_compute. reflexivity. Qed.

(** ** Strings and target paths *)

Lemma list_ascii_of_string_append (a b : string) :
  list_ascii_of_string (a +:+ b) = list_ascii_of_string a ++ list_ascii_of_string b.
Proof. induction a as [|c a IH]; simpl; [done | by rewrite <- IH]. Qed.

Lemma append_inv_tail (a b t : string) : a +:+ t = b +:+ t -> a = b.
Proof.
  intros H. apply (f_equal list_ascii_of_string) in H.
  rewrite !list_ascii_of_string_append in H. apply app_inv_tail in H.
  apply (f_equal string_of_list_ascii) in H.
  by rewrite !string_of_list_ascii_of_string in H.
Qed.

(** Two languages never share a target file. *)
Lemma targetPath_inj (baseFile : FileDetails) (isDir : bool) (x y : string) :
  targetPath baseFile isDir x = targetPath baseFile isDir y -> x = y.
Proof.
  unfold targetPath. destruct isDir; intros H.
  - apply String.app_inj in H. apply String.app_inj in H. by apply append_inv_tail in H.
  - apply String.app_inj in H. apply String.app_inj in H. by apply append_inv_tail in H.
Qed.

(** ** The merge written back *)

Section Merge.

Implicit Types (o src dst translated original : props) (k : string) (v : value).

Lemma keys_replace_own k v o : has_own o k = true -> keys (replace_own k v o) = keys o.
Proof.
  unfold has_own. induction o as [|[k0 v0] o IH]; simpl; [done|].
  destruct (String.eqb k0 k) eqn:E; simpl.
  - apply String.eqb_eq in E. by subst.
  - intros H. by rewrite IH.
Qed.

Lemma keys_insert_own k v o : keys (insert_own k v o) ≡ₚ k :: keys o.
Proof.
  induction o as [|[k0 v0] o IH]; simpl; [done|].
  destruct (key_before k k0); simpl; [done|].
  rewrite IH. apply Permutation_swap.
Qed.

Lemma NoDup_set_prop k v o : NoDup (keys o) -> NoDup (keys (set_prop k v o)).
Proof.
  intros Hnd. unfold set_prop. destruct (has_own o k) eqn:E.
  - by rewrite keys_replace_own.
  - rewrite keys_insert_own. apply NoDup_cons. split; [|done].
    apply get_own_None. unfold has_own in E. by destruct (get_own o k).
Qed.

Lemma NoDup_spread src dst : NoDup (keys dst) -> NoDup (keys (spread src dst)).
Proof.
  unfold spread. revert dst. induction src as [|[k v] src IH]; simpl; intros dst H; [done|].
  apply IH. by apply NoDup_set_prop.
Qed.

Lemma NoDup_spread2 translated original : NoDup (keys (spread2 translated original)).
Proof. unfold spread2. do 2 apply NoDup_spread. apply NoDup_nil_2. Qed.

(** The original content's value wins under every key it has. *)
Lemma spread2_original translated original k v :
  NoDup (keys original) -> get_own original k = Some v ->
  get_own (spread2 translated original) k = Some v.
Proof. intros. unfold spread2. by apply get_own_spread_present. Qed.

Lemma spread2_other translated original k :
  get_own original k = None ->
  get_own (spread2 translated original) k = get_own (spread translated []) k.
Proof. intros H. unfold spread2. apply get_own_spread_absent. by apply get_own_None. Qed.

(** Under a key the original lacks, the merge has what the translated
    leaves have. *)
Lemma spread_onto_empty translated k :
  NoDup (keys translated) -> get_own (spread translated []) k = get_own translated k.
Proof.
  intros Hnd. destruct (get_own translated k) as [v|] eqn:E.
  - by apply get_own_spread_present.
  - rewrite get_own_spread_absent; [done|]. by apply get_own_None.
Qed.

Lemma spread2_reads translated original k :
  NoDup (keys translated) -> NoDup (keys original) ->
  get_own (spread2 translated original) k
  = match get_own original k with
    | Some v => Some v
    | None => get_own translated k
    end.
Proof.
  intros Ht Ho. destruct (get_own original k) as [v|] eqn:E.
  - by apply spread2_original.
  - rewrite spread2_other by done. by apply spread_onto_empty.
Qed.

Lemma spread_keys src dst k :
  k ∈ keys (spread src dst) -> k ∈ keys src \/ k ∈ keys dst.
Proof.
  unfold spread. revert dst. induction src as [|[k0 v0] src IH]; simpl; intros dst H; [auto|].
  apply IH in H as [H|H]; [left; apply elem_of_cons; auto|].
  destruct (String.eq_dec k k0) as [->|Hne]; [left; apply elem_of_cons; auto|].
  right. destruct (decide (k ∈ keys dst)) as [|Hn]; [done|]. exfalso.
  apply get_own_None in Hn.
  assert (get_own (set_prop k0 v0 dst) k = None) as Hs by (by rewrite get_own_set_other).
  by apply get_own_None in Hs.
Qed.

(** When the original has every key of the translated leaves, the merge
    has the original's content. *)
Lemma spread2_covered translated original :
  NoDup (keys original) ->
  (forall k, k ∈ keys translated -> k ∈ keys original) ->
  forall k, get_own (spread2 translated original) k = get_own original k.
Proof.
  intros Hnd Hsub k. destruct (get_own original k) as [v|] eqn:E.
  - by apply spread2_original.
  - rewrite spread2_other by done.
    apply get_own_None. intros Hk. apply spread_keys in Hk as [Hk|Hk].
    + apply Hsub in Hk. by apply get_own_None in E.
    + by apply elem_of_nil in Hk.
Qed.

(** Two objects that read the same under every key have the same entries. *)
Lemma same_reads_same_entries o o' :
  NoDup (keys o) -> NoDup (keys o') ->
  (forall k, get_own o k = get_own o' k) -> o ≡ₚ o'.
Proof.
  intros Hnd Hnd' Hread. apply NoDup_Permutation.
  - by apply (NoDup_fmap_1 fst).
  - by apply (NoDup_fmap_1 fst).
  - intros [k v]. split; intros Hin.
    + apply get_own_elem. rewrite <- Hread. by apply elem_get_own.
    + apply get_own_elem. rewrite Hread. by apply elem_get_own.
Qed.

Lemma get_own_spread_is_Some src dst k :
  k ∈ keys src -> is_Some (get_own (spread src dst) k).
Proof.
  unfold spread. revert dst. induction src as [|[k0 v0] src IH]; simpl; intros dst Hk.
  - by apply elem_of_nil in Hk.
  - destruct (decide (k ∈ keys src)) as [Hin|Hout]; [by apply IH|].
    apply elem_of_cons in Hk as [->|Hk]; [|done].
    fold (spread src (set_prop k0 v0 dst)).
    rewrite get_own_spread_absent by done. rewrite get_own_set_same. eauto.
Qed.

(** Merging the same leaves into the merged content changes nothing. *)
Lemma spread2_again translated original :
  forall k, get_own (spread2 translated (spread2 translated original)) k
            = get_own (spread2 translated original) k.
Proof.
  intros k. destruct (get_own (spread2 translated original) k) as [v|] eqn:E.
  - apply spread2_original; [apply NoDup_spread2 | done].
  - rewrite spread2_other by done.
    destruct (decide (k ∈ keys original)) as [Hin|Hout].
    + apply (get_own_spread_is_Some original (spread translated [])) in Hin.
      unfold spread2 in E. rewrite E in Hin. by destruct Hin.
    + apply get_own_None in Hout. by rewrite <- (spread2_other translated original k Hout).
Qed.

End Merge.

(** ** [acquireMissingTranslations] *)

Section Driver.

Variable this : TranslateService.

Lemma same_dirs_refl w : same_dirs w w.
Proof. by intros q. Qed.

Lemma same_dirs_trans w1 w2 w3 : same_dirs w1 w2 -> same_dirs w2 w3 -> same_dirs w1 w3.
Proof. intros H1 H2 q. etrans; [apply H2 | apply H1]. Qed.

Lemma same_dirs_writable p w w' : same_dirs w w' -> writable p w -> writable p w'.
Proof.
  intros Hs [Hp Hd]. split; [|by apply Hs].
  destruct (w_dirs w' !! p) eqn:E; [|done].
  assert (is_Some (w_dirs w !! p)) as [x Hx] by (apply Hs; eauto). congruence.
Qed.

Lemma link_is_Some p (dirs : gmap string (list string)) q :
  is_Some (link p dirs !! q) <-> is_Some (dirs !! q).
Proof.
  unfold link. destruct (dirs !! Path.dirname p) as [names|] eqn:E; [|done].
  destruct (decide (q = Path.dirname p)) as [->|Hne].
  - rewrite lookup_insert_eq, E. split; eauto.
  - by rewrite lookup_insert_ne.
Qed.

Lemma writeFile_cases p data w :
  (writable p w /\
   writeFile p data w
   = (Ok tt, World (link p (w_dirs w)) (<[p := data]> (w_files w)) (w_log w)))
  \/ (~ writable p w /\ writeFile p data w = (Throw (Rejected ("Failed to save " +:+ p)), w)).
Proof.
  unfold writeFile, fs_writeFile, writable.
  destruct (w_dirs w !! p) eqn:Ep; [right; split; [by intros [? _] | done]|].
  destruct (w_dirs w !! Path.dirname p) eqn:Ed.
  - left. split; [split; eauto | done].
  - right. split; [|done]. intros [_ [? ?]]. congruence.
Qed.

(** What the work for one target file comes to. *)
Lemma translateTarget_cases base t w :
  match w_files w !! path t with
  | None => translateTarget this base t w = (Throw (ModuleNotFound (path t)), w)
  | Some original =>
      exists wl, extends w wl /\
        match fst (getTranslations this (VObj (diffObjects base original)) (lang t) w) with
        | Throw e => translateTarget this base t w = (Throw e, wl)
        | Ok None =>
            translateTarget this base t w
            = (Throw (TypeError "Cannot read properties of null (reading 'results')"), wl)
        | Ok (Some updates) =>
            translateTarget this base t w
            = writeFile (path t) (spread2 (results updates) original) wl
        end
  end.
Proof.
  unfold translateTarget, bind, require.
  destruct (w_files w !! path t) as [original|]; [|done].
  exists (snd (getTranslations this (VObj (diffObjects base original)) (lang t) w)).
  split; [apply getTranslations_extends|].
  by destruct (getTranslations this (VObj (diffObjects base original)) (lang t) w)
    as [[[u|]|e] wl].
Qed.

(** The work for one target touches that target's file only; it leaves the
    file alone when it fails, and writes the merge when the walk returns a
    record and the file can be written. *)
Lemma translateTarget_effect base t w r w' :
  translateTarget this base t w = (r, w') ->
  same_dirs w w'
  /\ (forall q, q <> path t -> w_files w' !! q = w_files w !! q)
  /\ (forall e, r = Throw e -> w_files w' = w_files w)
  /\ (forall original,
        w_files w !! path t = Some original ->
        match fst (getTranslations this (VObj (diffObjects base original)) (lang t) w) with
        | Ok (Some updates) =>
            (writable (path t) w ->
             r = Ok tt /\ w_files w' !! path t = Some (spread2 (results updates) original))
            /\ (r = Ok tt ->
                w_files w' !! path t = Some (spread2 (results updates) original))
        | _ => exists e, r = Throw e
        end).
Proof.
  intros Hrun. pose proof (translateTarget_cases base t w) as Hc.
  destruct (w_files w !! path t) as [original|] eqn:Ef.
  - destruct Hc as (wl & (Hd & Hf & _) & Hc).
    assert (same_dirs w wl) as Hsd by (intros q; by rewrite Hd).
    destruct (fst (getTranslations this (VObj (diffObjects base original)) (lang t) w))
      as [[u|]|e] eqn:Ewalk.
    + rewrite Hc in Hrun.
      destruct (writeFile_cases (path t) (spread2 (results u) original) wl)
        as [[Hw Hwr]|[Hw Hwr]]; rewrite Hwr in Hrun; injection Hrun as <- <-;
        cbn [w_dirs w_files w_log].
      * split; [intros q; cbn [w_dirs]; rewrite link_is_Some; apply Hsd|].
        split; [intros q Hq; by rewrite lookup_insert_ne, Hf|].
        split; [done|]. intros o [= <-]. rewrite Ewalk.
        split; intros _; [split; [done|] |]; apply lookup_insert_eq.
      * split; [done|]. split; [intros; by rewrite Hf|]. split; [intros; by rewrite Hf|].
        intros o [= <-]. rewrite Ewalk. split; [|done].
        intros Hok. destruct Hw. by apply (same_dirs_writable _ w wl).
    + rewrite Hc in Hrun. injection Hrun as <- <-.
      split; [done|]. split; [intros; by rewrite Hf|]. split; [intros; by rewrite Hf|].
      intros o [= <-]. rewrite Ewalk. eauto.
    + rewrite Hc in Hrun. injection Hrun as <- <-.
      split; [done|]. split; [intros; by rewrite Hf|]. split; [intros; by rewrite Hf|].
      intros o [= <-]. rewrite Ewalk. eauto.
  - rewrite Hc in Hrun. injection Hrun as <- <-.
    split; [apply same_dirs_refl|]. split; [done|]. split; [done|]. intros o [=].
Qed.

Lemma nestedBranch_world key (walk : M (option Translations)) w :
  snd (nestedBranch [] key walk w) = snd (walk w).
Proof. unfold nestedBranch, bind. by destruct (walk w) as [[[val|]|e] w1]. Qed.

Lemma nestedBranch_throw key (walk : M (option Translations)) w e :
  fst (walk w) = Throw e -> fst (nestedBranch [] key walk w) = Throw e.
Proof. unfold nestedBranch, bind. destruct (walk w) as [[[val|]|e'] w1]; simpl; congruence. Qed.

(** A provider call that throws makes the walk throw. *)
Lemma provider_throw_propagates obj lang text e w :
  Translate text lang ∈ walk_events this obj lang ->
  googleTranslate this text lang = Throw e ->
  fst (getTranslations this obj lang w) = Throw e.
Proof.
  unfold walk_events. intros Hin Hthrow.
  assert (forall w0 results key item,
            Translate text lang
              ∈ w_log (snd (stringBranch this results key item lang (World ∅ ∅ []))) ->
            fst (stringBranch this results key item lang w0) = Throw e) as Hleaf.
  { intros w0 results key item Hev.
    destruct (stringBranch_cases this results key item lang (World ∅ ∅ []))
      as [[Hlen Hb]|[Hlen Hb]]; rewrite Hb in Hev; simpl in Hev.
    - by apply elem_of_nil in Hev.
    - apply elem_of_cons in Hev as [[=]|Hev].
      apply elem_of_cons in Hev as [[= ->]|Hev]; [|by apply elem_of_nil in Hev].
      destruct (stringBranch_cases this results key item lang w0) as [[? _]|[_ ->]]; [lia|].
      simpl. by rewrite Hthrow. }
  revert w Hin. induction obj as [| b | n | s | ps IH] using value_ind_nested; intros w Hin;
    try (by apply elem_of_nil in Hin).
  - destruct s as [|c s]; [by apply elem_of_nil in Hin | by apply Hleaf].
  - destruct ps as [|[key item] rest]; [by apply elem_of_nil in Hin|].
    apply Forall_cons in IH as [IHitem _]. simpl in IHitem.
    assert ((forall s, item <> VStr s) ->
            fst (getTranslations this (VObj ((key, item) :: rest)) lang w) = Throw e) as Hn.
    { intros Hns. rewrite getTranslations_nested in Hin |- * by done.
      rewrite nestedBranch_world in Hin. apply nestedBranch_throw. by apply IHitem. }
    destruct item; try (by apply Hn). by apply Hleaf.
Qed.

Section Targets.

Variables (base : props) (baseFile : FileDetails) (isDir : bool).




Lemma acquireMissingTranslations_unfold (ls : list string) w :
  w_files w !! path baseFile = Some base ->
  acquireMissingTranslations this baseFile ls isDir w
  = match promise_all (map (translateTarget this base) (map (target baseFile isDir) ls)) w with
    | (Ok _, w') => (Ok tt, w')
    | (Throw e, w') =>
        (Ok tt, World (w_dirs w') (w_files w')
                  (w_log w' ++ [LogError "Failed to acquire missing translations" e]))
    end.
Proof.
  intros Hbase. unfold acquireMissingTranslations, try_catch, bind, require.
  rewrite Hbase.
  by destruct (promise_all (map (translateTarget this base) (map (target baseFile isDir) ls)) w)
    as [[?|?] ?].
Qed.

End Targets.

(** A failure inside never leaves [acquireMissingTranslations]. *)
Lemma acquireMissingTranslations_returns baseFile ls isDir w :
  fst (acquireMissingTranslations this baseFile ls isDir w) = Ok tt.
Proof.
  unfold acquireMissingTranslations, try_catch.
  match goal with |- context [match ?m w with _ => _ end] => destruct (m w) as [[[]|e] w1] end;
    reflexivity.
Qed.

End Driver.

(** ** The driver on the scenarios *)

(** C1: for base [{"Title": "Hello"}], target [{}] and [maxLength = 100] the
    gap tree is said to be [{"Title": "Hello"}], the provider to be called
    with [("Hello", "fr")], and [{"Title": "Bonjour"}] to be written.
    [diffObjects] walks the keys of its second argument, the target, which
    has none: the gap tree is [{}], the walk returns [null], reading
    [updates.results] throws, the error is logged, the provider is never
    called and nothing is written.  The walk and the merge do as the claim
    says once they are given the gap tree [{"Title": "Hello"}], which is
    what [diffObjects] yields with its arguments exchanged. *)
Theorem hello_scenario_writes_nothing :
  let base := [("Title", VStr "Hello")] in
  let w := Sample.disk base [] in
  diffObjects base [] = []
  /\ acquireMissingTranslations Sample.fr100 Sample.enFile ["fr"] false w
     = (Ok tt,
        World (w_dirs w) (w_files w)
          [LogError "Failed to acquire missing translations"
             (TypeError "Cannot read properties of null (reading 'results')")])
  /\ w_files w !! "/i18n/fr.json" = Some []
  /\ diffObjects [] base = base
  /\ fst (getTranslations Sample.fr100 (VObj base) "fr" w)
     = Ok (Some {| results := [("Title", VStr "Bonjour")]; translated := true |})
  /\ spread2 [("Title", VStr "Bonjour")] [] = [("Title", VStr "Bonjour")].
Proof. repeat split; vm_compute; reflexivity. Qed.

(** C10: on the empty object the walk returns [null], as the claim says; the
    driver is then said to merge that with the original content and write
    the original back unchanged.  With base and target both
    [{"Title": "Hello"}] the gap tree is empty, the walk returns [null], and
    the driver's read of [updates.results] throws a [TypeError]: the work
    for the target stops there, [writeFile] is not reached, and
    [acquireMissingTranslations] logs the error. *)
Theorem empty_gap_tree_is_not_merged :
  let doc := [("Title", VStr "Hello")] in
  let w := Sample.disk doc doc in
  (forall this lang w0, getTranslations this (VObj []) lang w0 = (Ok None, w0))
  /\ diffObjects doc doc = []
  /\ translateTarget Sample.fr100 doc {| lang := "fr"; path := "/i18n/fr.json" |} w
     = (Throw (TypeError "Cannot read properties of null (reading 'results')"), w)
  /\ acquireMissingTranslations Sample.fr100 Sample.enFile ["fr"] false w
     = (Ok tt,
        World (w_dirs w) (w_files w)
          [LogError "Failed to acquire missing translations"
             (TypeError "Cannot read properties of null (reading 'results')")]).
Proof. repeat split; vm_compute; reflexivity. Qed.

(** C8: the content written back for a target file is the merge
    [{...updates.results, ...original}].  The merge has each key once;
    under a key the original has it holds the original's value, under any
    other key what the translated leaves hold there, so a translated key
    the original lacks is in the merge with its translation.  When the
    original has every key of the translated leaves the merge therefore
    reads as the original under every key and has exactly the original's
    entries, and merging the same leaves a second time changes nothing. *)
Theorem written_content_keeps_original (this : TranslateService) (base : props)
    (translation : FileDetails) (w w' : world) (original : props) :
  NoDup (keys original) ->
  w_files w !! path translation = Some original ->
  translateTarget this base translation w = (Ok tt, w') ->
  (exists updates written,
     fst (getTranslations this (VObj (diffObjects base original)) (lang translation) w)
     = Ok (Some updates)
     /\ w_files w' !! path translation = Some written
     /\ written = spread2 (results updates) original
     /\ forall k, get_own written k
                  = match get_own original k with
                    | Some v => Some v
                    | None => get_own (results updates) k
                    end)
  /\ (forall translated,
        NoDup (keys translated) ->
        NoDup (keys (spread2 translated original))
        /\ (forall k, get_own (spread2 translated original) k
                      = match get_own original k with
                        | Some v => Some v
                        | None => get_own translated k
                        end)
        /\ ((forall k, k ∈ keys translated -> k ∈ keys original) ->
            (forall k, get_own (spread2 translated original) k = get_own original k)
            /\ spread2 translated original ≡ₚ original)
        /\ (forall k, get_own (spread2 translated (spread2 translated original)) k
                      = get_own (spread2 translated original) k)).
Proof.
  intros Hnd Hfile Hrun. split.
  - destruct (translateTarget_effect this base translation w (Ok tt) w' Hrun)
      as (_ & _ & _ & Hout).
    specialize (Hout original Hfile).
    destruct (getTranslations this (VObj (diffObjects base original)) (lang translation) w)
      as [walk w1] eqn:Hwalk.
    simpl in Hout |- *. destruct walk as [[u|]|e]; [|by destruct Hout..].
    exists u, (spread2 (results u) original).
    split; [done|]. split; [by apply Hout|]. split; [done|].
    intros k. apply spread2_reads; [|done].
    destruct (getTranslations_first_key this _ _ w u w1 Hwalk)
      as (key & item & rest & content & _ & -> & _).
    simpl. apply NoDup_singleton.
  - intros translated Ht. split; [apply NoDup_spread2|]. split; [|split].
    + intros k. by apply spread2_reads.
    + intros Hsub. split; [by apply spread2_covered|].
      apply same_reads_same_entries; [apply NoDup_spread2 | done | by apply spread2_covered].
    + apply spread2_again.
Qed.

Lemma written_content_keeps_original_witness :
  let this := Sample.fr100 in
  let translation := {| lang := "fr"; path := "/i18n/fr.json" |} in
  let original := [("Extra", VStr "Hello")] in
  let w := Sample.disk [] original in
  let w' := snd (translateTarget this [] translation w) in
  (exists updates written,
     fst (getTranslations this (VObj (diffObjects [] original)) (lang translation) w)
     = Ok (Some updates)
     /\ w_files w' !! path translation = Some written
     /\ written = spread2 (results updates) original
     /\ forall k, get_own written k
                  = match get_own original k with
                    | Some v => Some v
                    | None => get_own (results updates) k
                    end)
  /\ (forall translated,
        NoDup (keys translated) ->
        NoDup (keys (spread2 translated original))
        /\ (forall k, get_own (spread2 translated original) k
                      = match get_own original k with
                        | Some v => Some v
                        | None => get_own translated k
                        end)
        /\ ((forall k, k ∈ keys translated -> k ∈ keys original) ->
            (forall k, get_own (spread2 translated original) k = get_own original k)
            /\ spread2 translated original ≡ₚ original)
        /\ (forall k, get_own (spread2 translated (spread2 translated original)) k
                      = get_own (spread2 translated original) k)).
Proof.
  apply (written_content_keeps_original Sample.fr100 []
           {| lang := "fr"; path := "/i18n/fr.json" |}
           (Sample.disk [] [("Extra", VStr "Hello")])
           (snd (translateTarget Sample.fr100 []
                   {| lang := "fr"; path := "/i18n/fr.json" |}
                   (Sample.disk [] [("Extra", VStr "Hello")])))
           [("Extra", VStr "Hello")]).
  - by_compute.
  - reflexivity.
  - vm_compute. reflexivity.
Defined.

(** The merge on leaves the original lacks in part: the original's value
    stays under the common key, the new key comes in with its translation,
    and a second merge of the same leaves gives the same object. *)
Example merge_sample :
  let translated := [("Title", VStr "Bonjour"); ("Extra", VStr "Monde")] in
  let original := [("Title", VStr "Salut")] in
  spread2 translated original = [("Title", VStr "Salut"); ("Extra", VStr "Monde")]
  /\ spread2 translated (spread2 translated original) = spread2 translated original.
Proof. split; reflexivity. Qed.

(** The work for that target does succeed, and writes the original back. *)
Example written_content_sample :
  let w := Sample.disk [] [("Extra", VStr "Hello")] in
  let run := translateTarget Sample.fr100 [] {| lang := "fr"; path := "/i18n/fr.json" |} w in
  fst run = Ok tt
  /\ w_files (snd run) !! "/i18n/fr.json" = Some [("Extra", VStr "Hello")]
  /\ Translate "Hello" "fr" ∈ w_log (snd run).
Proof.
  split; [reflexivity|]. split; [reflexivity|].
  vm_compute. apply list_elem_of_further, list_elem_of_here.
Qed.



(** In that run the German walk fails at the provider and the French file
    is still handled: the provider is asked for it, and its file holds the
    merge once the write has finished. *)
Example provider_failure_sample :
  let w := Sample.disk3 [] [("Extra", VStr "Hello")] [("Extra", VStr "Hallo")] in
  let run := acquireMissingTranslations Sample.fr100 Sample.enFile ["de"; "fr"] false w in
  w_log (snd run)
  = [LogInfo ("Translating " +:+ dquote +:+ "Hallo" +:+ dquote +:+ " to de");
     Translate "Hallo" "de";
     LogInfo ("Translating " +:+ dquote +:+ "Hello" +:+ dquote +:+ " to fr");
     Translate "Hello" "fr";
     LogError "Failed to acquire missing translations" (ProviderError "unavailable")]
  /\ w_files (snd run) !! "/i18n/de.json" = Some [("Extra", VStr "Hallo")]
  /\ w_files (settled run) !! "/i18n/fr.json" = Some [("Extra", VStr "Hello")].
Proof. repeat split; vm_compute; reflexivity. Qed.

(** ** Resolving the files of a reference *)

Section Resolver.

Variable this : TranslateService.

Lemma dirname_end_no_slash (r : list ascii) (i : nat) (matchedSlash : bool) :
  (forall c, c ∈ r -> Path.is_slash c = false) ->
  Path.dirname_end r i matchedSlash = None.
Proof.
  revert i matchedSlash. induction r as [|c r IH]; intros i m Hr; simpl; [done|].
  rewrite (Hr c) by apply list_elem_of_here.
  apply IH. intros c' Hc'. apply Hr. by apply list_elem_of_further.
Qed.

(** The directory part of a bare name is ["."]. *)
Lemma dirname_of_name (name : string) :
  (forall c, c ∈ list_ascii_of_string name -> Path.is_slash c = false) ->
  Path.dirname name = ".".
Proof.
  intros Hname. unfold Path.dirname.
  destruct (list_ascii_of_string name) as [|c0 tl]; [done|].
  rewrite dirname_end_no_slash.
  - by rewrite (Hname c0) by apply list_elem_of_here.
  - intros c Hc. apply Hname. apply list_elem_of_further, list_elem_of_In.
    apply list_elem_of_In in Hc. by apply (proj2 (in_rev tl c)).
Qed.

(** In directory mode the language of every descriptor is the directory
    part of an entry of the parent's listing. *)
Lemma getDirectoryFiles_languages (reference : TranslateReference) w files w' :
  getDirectoryFiles reference w = (Ok files, w') ->
  forall fd, fd ∈ result_ files ->
  exists directories name,
    w_dirs w !! Path.dirname (ref_path reference) = Some directories
    /\ name ∈ directories /\ lang fd = Path.dirname name.
Proof.
  unfold getDirectoryFiles, bind, dirFiles.
  destruct (w_dirs w !! Path.dirname (ref_path reference)) as [directories|]; [|done].
  destruct (promise_all _ w) as [[listings|e] w1]; [|done].
  intros [= <- <-] fd Hfd. cbn [result_] in Hfd.
  apply list_elem_of_In, in_concat in Hfd as (l & Hl & Hfd).
  apply in_map_iff in Hl as ([pathh listing] & <- & Hentry).
  apply in_map_iff in Hfd as (file & <- & _).
  exists directories, pathh. split; [done|]. split; [|done].
  apply list_elem_of_In. by apply in_combine_l in Hentry.
Qed.

(** Without configured languages neither helper gets as far as the file
    system. *)
Lemma createEmptyFiles_needs_languages reference baseFile isDir w :
  languages (config this) = None ->
  createEmptyFiles this reference baseFile isDir w
  = (Throw (TypeError "Cannot read properties of undefined (reading 'map')"), w).
Proof. intros H. unfold createEmptyFiles, config_languages_map, bind. by rewrite H. Qed.

Lemma createEmptyFolders_needs_languages reference w :
  languages (config this) = None ->
  createEmptyFolders this reference w
  = (Throw (TypeError "Cannot read properties of undefined (reading 'map')"), w).
Proof. intros H. unfold createEmptyFolders, config_languages_map, bind. by rewrite H. Qed.

End Resolver.

(** C5: in directory mode every (subdirectory, file) pair is said to give a
    descriptor whose language is the subdirectory's name.  With the folders
    [en], [fr] and [de] under [/i18n], each holding [common.json], and the
    reference [/i18n/en], the reference language is ["en"] and there is one
    descriptor per file per folder, as the claim says, but the language of
    each is ["."]: it is taken with [path.dirname] from the bare name that
    [readdir] returns.  No descriptor has the reference language.  The
    folders are listed by their bare names, so from another working
    directory the resolution is rejected. *)
Theorem directory_mode_languages :
  let reference := {| ref_path := "/i18n/en"; ref_inject := None |} in
  getDirectoryFiles reference Sample.tree
  = (Ok {| result_ := [ {| lang := "."; path := "common.json" |};
                        {| lang := "."; path := "common.json" |};
                        {| lang := "."; path := "common.json" |} ];
           referenceLanguage := "en" |},
     Sample.tree)
  /\ (exists files,
        fst (getDirectoryFiles reference Sample.tree) = Ok files
        /\ List.filter (fun x => String.eqb (lang x) (referenceLanguage files))
             (result_ files)
           = [])
  /\ fst (getDirectoryFiles reference Sample.tree_elsewhere)
     = Throw (Rejected "Failed to acquire file listing in en").
Proof.
  split; [vm_compute; reflexivity|]. split; [|vm_compute; reflexivity].
  eexists. split; vm_compute; reflexivity.
Qed.

(** C9: the effective languages are the configured ones, or else those
    found on disk, and the run is said to make sure that a target file (and
    in directory mode a folder) exists for each of them before translating.
    [createEmptyFolders] and [createEmptyFiles] map over
    [this.config.languages], not over the effective languages: with no
    languages configured that is [undefined], the call throws a
    [TypeError], the reference is abandoned with nothing created and
    nothing translated.  Here the effective languages are [en], [fr] and
    [old], and [/i18n/old.json] does not exist before or after. *)
Theorem no_languages_no_files :
  let this := Sample.service None 100 false "/i18n/en.json" in
  let reference := {| ref_path := "/i18n/en.json"; ref_inject := None |} in
  let w := Sample.disk_stray in
  (exists files,
     fst (getJSONFiles reference w) = Ok files
     /\ effectiveLanguages this files = ["en"; "fr"; "old"])
  /\ runReference this reference w
     = (Throw (TypeError "Cannot read properties of undefined (reading 'map')"), w)
  /\ existsSync "/i18n/old.json" w = false
  /\ runReference (Sample.service None 100 false "/i18n/en")
       {| ref_path := "/i18n/en"; ref_inject := None |} Sample.tree
     = (Throw (TypeError "Cannot read properties of undefined (reading 'map')"), Sample.tree).
Proof.
  split; [|repeat split; vm_compute; reflexivity].
  eexists. split; vm_compute; reflexivity.
Qed.

(** With languages configured the files are made: a missing French file is
    created empty beside the reference file. *)
Example configured_languages_sample :
  let this := Sample.service (Some ["fr"; "de"]) 100 false "/i18n/en.json" in
  let reference := {| ref_path := "/i18n/en.json"; ref_inject := None |} in
  let run := createEmptyFiles this reference {| lang := "en"; path := "en.json" |} false
               Sample.disk_stray in
  fst run = Ok tt
  /\ w_files (snd run) !! "/i18n/de.json" = Some []
  /\ w_files (snd run) !! "/i18n/fr.json" = Some []
  /\ w_dirs (snd run) !! "/i18n" = Some ["en.json"; "fr.json"; "old"; "de.json"].
Proof. repeat split; vm_compute; reflexivity. Qed.

(** A whole run with languages configured: the missing German file is
    created beside the reference file, and the translation then fails to
    load the base file, which the resolver names [en.json] as [readdir]
    gave it. *)
Example configured_run_sample :
  let this := Sample.service (Some ["fr"; "de"]) 100 false "/i18n/en.json" in
  let finished := run this Sample.disk_stray in
  fst finished = Ok tt
  /\ w_files (snd finished) !! "/i18n/de.json" = Some []
  /\ w_log (snd finished)
     = [LogError "Failed to acquire missing translations" (ModuleNotFound "en.json")].
Proof. repeat split; vm_compute; reflexivity. Qed.

(** * Further properties of the code *)

(** ** [diffObjects] *)

Section DiffObjectsMore.

Implicit Types (base obj : props) (key : string).

Lemma isEqual_objects pa pb :
  isEqual (VObj pa) (VObj pb)
  = Nat.eqb (length pa) (length pb)
    && forallb (fun kv => match get_own pb (fst kv) with
                          | Some vb => isEqual (snd kv) vb
                          | None => false
                          end) pa.
Proof.
  simpl. f_equal. induction pa as [|[k va] pa IH]; simpl; [done|].
  destruct (get_own pb k); [by rewrite IH | done].
Qed.

Lemma wf_value_object ps :
  wf_value (VObj ps) <-> NoDup (keys ps) /\ Forall (fun kv => wf_value (snd kv)) ps.
Proof.
  simpl. apply and_iff_compat_l.
  induction ps as [|[k x] ps IH]; simpl.
  - split; [intros _; constructor | done].
  - rewrite Forall_cons, IH. done.
Qed.

(** Deep equality is reflexive on documents. *)
Lemma isEqual_refl (v : value) : wf_value v -> isEqual v v = true.
Proof.
  induction v as [| b | n | s | ps IH] using value_ind_nested; intros Hwf.
  - done.
  - simpl. by destruct b.
  - simpl. apply Z.eqb_refl.
  - simpl. apply String.eqb_refl.
  - apply wf_value_object in Hwf as [Hnd Hall].
    rewrite isEqual_objects, Nat.eqb_refl. simpl.
    apply forallb_forall. intros [k x] Hin. simpl.
    apply list_elem_of_In in Hin.
    rewrite (elem_get_own ps k x Hnd Hin).
    rewrite Forall_forall in IH, Hall.
    by apply (IH (k, x) Hin), (Hall (k, x) Hin).
Qed.

Lemma keep_gap_none base (l : props) (acc : props) :
  (forall kv, kv ∈ l -> is_gap base (fst kv) (snd kv) = false) ->
  fold_left (keep_gap base) l acc = acc.
Proof.
  revert acc. induction l as [|kv l IH]; intros acc H; simpl; [done|].
  rewrite IH by (intros kv' Hin; apply H; by apply list_elem_of_further).
  unfold keep_gap. by rewrite H by apply list_elem_of_here.
Qed.


End DiffObjectsMore.

(** X1: the difference of a document with itself is empty. *)
Theorem diffObjects_self (base : props) :
  wf_value (VObj base) -> diffObjects base base = [].
Proof.
  intros Hwf. rewrite diffObjects_unfold. apply keep_gap_none.
  intros [k v] Hin. unfold is_gap. simpl.
  apply wf_value_object in Hwf as [Hnd Hall].
  rewrite (get_of_own base k v (elem_get_own base k v Hnd Hin)). simpl.
  rewrite Forall_forall in Hall. by rewrite (isEqual_refl v (Hall (k, v) Hin)).
Qed.

Lemma diffObjects_self_witness :
  diffObjects [("Title", VStr "Hello"); ("Nested", VObj [("Sub", VStr "World")])]
              [("Title", VStr "Hello"); ("Nested", VObj [("Sub", VStr "World")])]
  = [].
Proof.
  apply (diffObjects_self
           [("Title", VStr "Hello"); ("Nested", VObj [("Sub", VStr "World")])]).
  simpl. repeat split; by_compute.
Defined.




(** ** [getTranslations] *)

Section WalkMore.

Variable this : TranslateService.

Lemma stringBranch_events results key item lang :
  w_log (snd (stringBranch this results key item lang (World ∅ ∅ []))) = []
  \/ ((Z.of_nat (String.length item) <= maxLength (config this))%Z
      /\ w_log (snd (stringBranch this results key item lang (World ∅ ∅ [])))
         = [LogInfo (translating item lang); Translate item lang]).
Proof.
  destruct (stringBranch_cases this results key item lang (World ∅ ∅ []))
    as [[_ ->]|[Hlen ->]]; [by left | by right].
Qed.

Lemma walk_events_cases obj lang :
  walk_events this obj lang = []
  \/ exists text,
       (Z.of_nat (String.length text) <= maxLength (config this))%Z
       /\ walk_events this obj lang = [LogInfo (translating text lang); Translate text lang].
Proof.
  unfold walk_events.
  induction obj as [| b | n | s | ps IH] using value_ind_nested; try (by left).
  - destruct s as [|c s]; [by left|].
    destruct (stringBranch_events [] "0" (String c EmptyString) lang) as [H|[Hlen H]];
      [by left | right; by exists (String c EmptyString)].
  - destruct ps as [|[key item] rest]; [by left|].
    apply Forall_cons in IH as [IHitem _]. simpl in IHitem.
    assert ((forall s, item <> VStr s) ->
            w_log (snd (getTranslations this (VObj ((key, item) :: rest)) lang (World ∅ ∅ [])))
            = w_log (snd (getTranslations this item lang (World ∅ ∅ [])))) as Hn.
    { intros Hns. rewrite getTranslations_nested by done. by rewrite nestedBranch_world. }
    destruct item as [| b | n | s | ps']; try (rewrite Hn by done; exact IHitem).
    rewrite getTranslations_string.
    destruct (stringBranch_events [] key s lang) as [H|[Hlen H]];
      [by left | right; by exists s].
Qed.

End WalkMore.

(** X4: whenever [getTranslations] returns a record for a node, the
    record's results hold exactly one entry, under the first key of the
    node, and the entry is a string (a translation or the marker) or a
    boolean, never an object. *)
Theorem walk_single_entry (this : TranslateService) (node : props) (lang : string)
    (w w' : world) (r : Translations) :
  getTranslations this (VObj node) lang w = (Ok (Some r), w') ->
  exists key item rest content,
    node = (key, item) :: rest
    /\ results r = [(key, content)]
    /\ ((exists text, content = VStr text) \/ (exists flag, content = VBool flag)).
Proof.
  intros Hrun.
  destruct (getTranslations_first_key this node lang w r w' Hrun)
    as (key & item & rest & content & Hnode & Hres & Hitem).
  exists key, item, rest, content. split; [done|]. split; [done|].
  destruct item as [| b | n | s | ps];
    try (destruct Hitem as (sub & _ & -> & _); right; by exists (translated sub)).
  destruct Hitem as (text & -> & _). left. by exists text.
Qed.

Lemma walk_single_entry_witness :
  exists key item rest content,
    [("Title", VStr "Hello"); ("Nested", VObj [("Sub", VStr "World")])]
    = (key, item) :: rest
    /\ results {| results := [("Title", VStr "Bonjour")]; translated := true |}
       = [(key, content)]
    /\ ((exists text, content = VStr text) \/ (exists flag, content = VBool flag)).
Proof.
  apply (walk_single_entry Sample.fr100
           [("Title", VStr "Hello"); ("Nested", VObj [("Sub", VStr "World")])]
           "fr" (Sample.disk [] [])
           (snd (getTranslations Sample.fr100
                   (VObj [("Title", VStr "Hello"); ("Nested", VObj [("Sub", VStr "World")])])
                   "fr" (Sample.disk [] [])))
           {| results := [("Title", VStr "Bonjour")]; translated := true |}).
  vm_compute. reflexivity.
Defined.

(** X5: a walk asks the provider at most once, whatever the size of the
    tree: it either logs nothing and asks nothing, or logs the
    ["Translating ..."] line and then asks for that one text, which is
    within [maxLength]. *)
Theorem walk_asks_at_most_once (this : TranslateService) (obj : value) (lang : string)
    (w : world) :
  w_log (snd (getTranslations this obj lang w)) = w_log w
  \/ exists text,
       (Z.of_nat (String.length text) <= maxLength (config this))%Z
       /\ w_log (snd (getTranslations this obj lang w))
          = w_log w ++ [LogInfo (translating text lang); Translate text lang].
Proof.
  rewrite getTranslations_events. simpl.
  destruct (walk_events_cases this obj lang) as [->|(text & Hlen & ->)].
  - left. apply app_nil_r.
  - right. by exists text.
Qed.

(** X6: a walk neither reads nor changes the file system: it leaves the
    directories and the files as they are, and its result is the same in
    every world. *)
Theorem walk_leaves_files (this : TranslateService) (obj : value) (lang : string)
    (w w0 : world) :
  w_dirs (snd (getTranslations this obj lang w)) = w_dirs w
  /\ w_files (snd (getTranslations this obj lang w)) = w_files w
  /\ fst (getTranslations this obj lang w) = fst (getTranslations this obj lang w0).
Proof.
  rewrite (getTranslations_events this obj lang w), (getTranslations_events this obj lang w0).
  done.
Qed.

(** X7: an exception thrown by the provider is not swallowed by the walk:
    the walk throws that same exception, at whatever depth the call was
    made. *)
Theorem walk_rethrows (this : TranslateService) (obj : value) (lang text : string)
    (e : exn) (w : world) :
  Translate text lang ∈ w_log (snd (getTranslations this obj lang (World ∅ ∅ []))) ->
  googleTranslate this text lang = Throw e ->
  fst (getTranslations this obj lang w) = Throw e.
Proof. intros Hcall Hthrow. by apply (provider_throw_propagates this obj lang text e w). Qed.

Lemma walk_rethrows_witness :
  fst (getTranslations Sample.fr100 (VObj [("Nested", VObj [("Sub", VStr "Hallo")])])
         "de" (Sample.disk [] []))
  = Throw (ProviderError "unavailable").
Proof.
  apply (walk_rethrows Sample.fr100 (VObj [("Nested", VObj [("Sub", VStr "Hallo")])])
           "de" "Hallo" (ProviderError "unavailable") (Sample.disk [] [])).
  - vm_compute. apply list_elem_of_further, list_elem_of_here.
  - reflexivity.
Defined.

(** X8: a node whose first value is neither a string nor a non-empty
    object makes the walk throw a [TypeError], with nothing logged and
    nothing asked of the provider: [null] because [Object.keys] rejects it,
    a number, a boolean or the empty object because the recursive call
    returns [null] and its [translated] is read. *)
Theorem walk_rejects_other_values (this : TranslateService) (key : string)
    (rest : props) (lang : string) (w : world) :
  getTranslations this (VObj ((key, VNull) :: rest)) lang w
  = (Throw (TypeError "Cannot convert undefined or null to object"), w)
  /\ (forall n, getTranslations this (VObj ((key, VNum n) :: rest)) lang w
                = (Throw (TypeError "Cannot read properties of null (reading 'translated')"), w))
  /\ (forall b, getTranslations this (VObj ((key, VBool b) :: rest)) lang w
                = (Throw (TypeError "Cannot read properties of null (reading 'translated')"), w))
  /\ getTranslations this (VObj ((key, VObj []) :: rest)) lang w
     = (Throw (TypeError "Cannot read properties of null (reading 'translated')"), w).
Proof. repeat split. Qed.

(** X9: the [translated] flag of a returned record is [false] only when
    [retranslate] is off and the leaf the walk came to is longer than
    [maxLength]: then nothing was logged and the provider was not asked.
    A walk that asked the provider always reports [true]. *)
Theorem walk_flag_false (this : TranslateService) (obj : value) (lang : string)
    (w w' : world) (r : Translations) :
  getTranslations this obj lang w = (Ok (Some r), w') ->
  translated r = false ->
  retranslate (config this) = false
  /\ w' = w
  /\ exists s, first_leaf obj = Some s
               /\ (Z.of_nat (String.length s) > maxLength (config this))%Z.
Proof.
  assert (forall results key item w w' r,
            stringBranch this results key item lang w = (Ok (Some r), w') ->
            translated r = false ->
            retranslate (config this) = false /\ w' = w
            /\ (Z.of_nat (String.length item) > maxLength (config this))%Z) as Hleaf.
  { intros results key item w1 w2 r1 Hrun Hflag.
    destruct (stringBranch_cases this results key item lang w1) as [[Hlen Hb]|[_ Hb]];
      rewrite Hb in Hrun.
    - injection Hrun as <- <-. by simpl in Hflag.
    - destruct (googleTranslate this item lang); [|discriminate].
      injection Hrun as <- <-. discriminate. }
  revert w w' r.
  induction obj as [| b | n | s | ps IH] using value_ind_nested; intros w w' r Hrun Hflag;
    try discriminate.
  - destruct s as [|c s]; [discriminate|].
    destruct (Hleaf _ _ _ _ _ _ Hrun Hflag) as (Hre & Hw & Hlen).
    split; [done|]. split; [done|]. by exists (String c EmptyString).
  - destruct ps as [|[key item] rest]; [discriminate|].
    apply Forall_cons in IH as [IHitem _]. simpl in IHitem.
    assert ((forall s, item <> VStr s) ->
            retranslate (config this) = false /\ w' = w
            /\ exists s, first_leaf item = Some s
                         /\ (Z.of_nat (String.length s) > maxLength (config this))%Z) as Hn.
    { intros Hns. rewrite getTranslations_nested in Hrun by done.
      unfold nestedBranch, bind in Hrun.
      destruct (getTranslations this item lang w) as [[[sub|]|e] w1] eqn:Hsub;
        try discriminate.
      injection Hrun as <- <-. by apply (IHitem w w1 sub). }
    destruct item as [| b | n | s | ps']; try (by apply Hn).
    rewrite getTranslations_string in Hrun.
    destruct (Hleaf _ _ _ _ _ _ Hrun Hflag) as (Hre & Hw & Hlen).
    split; [done|]. split; [done|]. by exists s.
Qed.

Lemma walk_flag_false_witness :
  retranslate (config (Sample.service (Some ["fr"]) 200 false "/i18n/en.json")) = false
  /\ Sample.disk [] [] = Sample.disk [] []
  /\ exists s,
       first_leaf (VObj [("Nested", VObj [("Title", VStr Sample.leaf250)])]) = Some s
       /\ (Z.of_nat (String.length s)
           > maxLength (config (Sample.service (Some ["fr"]) 200 false "/i18n/en.json")))%Z.
Proof.
  apply (walk_flag_false (Sample.service (Some ["fr"]) 200 false "/i18n/en.json")
           (VObj [("Nested", VObj [("Title", VStr Sample.leaf250)])]) "fr"
           (Sample.disk [] []) (Sample.disk [] [])
           {| results := [("Nested", VBool false)]; translated := false |}).
  - vm_compute. reflexivity.
  - reflexivity.
Defined.

(** ** [acquireMissingTranslations] *)

Section DriverMore.

Variable this : TranslateService.

Lemma same_entries_refl w : same_entries w w.
Proof. intros q. destruct (w_files w !! q) as [doc|]; [by exists doc | done]. Qed.

Lemma same_entries_files w w' : w_files w' = w_files w -> same_entries w w'.
Proof.
  intros H q. rewrite H. destruct (w_files w !! q) as [doc|]; [by exists doc | done].
Qed.

Lemma same_entries_trans w1 w2 w3 :
  same_entries w1 w2 -> same_entries w2 w3 -> same_entries w1 w3.
Proof.
  intros H12 H23 q. specialize (H12 q). specialize (H23 q).
  destruct (w_files w1 !! q) as [doc|].
  - destruct H12 as (doc2 & H2 & Hp2). rewrite H2 in H23.
    destruct H23 as (doc3 & H3 & Hp3). exists doc3. split; [done|]. by etrans.
  - by rewrite H12 in H23.
Qed.

(** The results of a walk of a gap tree have their keys in the target. *)
Lemma walk_keys_in_target base original lang w u w1 :
  getTranslations this (VObj (diffObjects base original)) lang w = (Ok (Some u), w1) ->
  forall k, k ∈ keys (results u) -> k ∈ keys original.
Proof.
  intros Hrun k Hk.
  destruct (getTranslations_first_key this _ lang w u w1 Hrun)
    as (key & item & rest & content & Hgap & Hres & _).
  rewrite Hres in Hk. simpl in Hk. apply list_elem_of_singleton in Hk as ->.
  apply (diffObjects_keys base original). rewrite Hgap. simpl. apply list_elem_of_here.
Qed.

Lemma translateTarget_same_entries base t w r w' :
  wf_files w ->
  translateTarget this base t w = (r, w') ->
  same_entries w w' /\ wf_files w'.
Proof.
  intros Hwf Hrun.
  destruct (translateTarget_effect this base t w r w' Hrun) as (_ & Hother & Hthrow & Hout).
  destruct r as [[]|e].
  2:{ pose proof (Hthrow e eq_refl) as Hf. split; [by apply same_entries_files|].
      unfold wf_files. by rewrite Hf. }
  pose proof (translateTarget_cases this base t w) as Hc.
  destruct (w_files w !! path t) as [original|] eqn:Hfile.
  2:{ rewrite Hc in Hrun. discriminate. }
  clear Hc. specialize (Hout original eq_refl).
  destruct (getTranslations this (VObj (diffObjects base original)) (lang t) w)
    as [walk w1] eqn:Hwalk.
  simpl in Hout. destruct walk as [[u|]|e]; [|by destruct Hout..].
  destruct Hout as [_ Hout]. specialize (Hout eq_refl).
  assert (NoDup (keys original)) as Hnd by (by apply (Hwf (path t))).
  assert (spread2 (results u) original ≡ₚ original) as Hperm.
  { apply same_reads_same_entries; [apply NoDup_spread2 | done |].
    apply spread2_covered; [done|]. by apply (walk_keys_in_target base original (lang t) w u w1). }
  split.
  - intros q. destruct (decide (q = path t)) as [->|Hne].
    + rewrite Hfile. by exists (spread2 (results u) original).
    + rewrite (Hother q Hne). destruct (w_files w !! q) as [doc|]; [by exists doc | done].
  - intros q doc Hq. destruct (decide (q = path t)) as [->|Hne].
    + rewrite Hout in Hq. injection Hq as <-. apply NoDup_spread2.
    + rewrite (Hother q Hne) in Hq. by apply (Hwf q).
Qed.

Lemma targets_same_entries base (ts : list FileDetails) w r w' :
  wf_files w ->
  promise_all (map (translateTarget this base) ts) w = (r, w') ->
  same_entries w w' /\ wf_files w'.
Proof.
  revert w r w'. induction ts as [|t ts IH]; intros w r w' Hwf Hrun; simpl in Hrun.
  - injection Hrun as <- <-. split; [apply same_entries_refl | done].
  - destruct (translateTarget this base t w) as [r1 w1] eqn:E1.
    destruct (promise_all (map (translateTarget this base) ts) w1) as [rs w2] eqn:E2.
    injection Hrun as <- <-.
    destruct (translateTarget_same_entries base t w r1 w1 Hwf E1) as [H1 Hwf1].
    destruct (IH w1 rs w2 Hwf1 E2) as [H2 Hwf2].
    split; [by apply (same_entries_trans w w1 w2) | done].
Qed.

Lemma targets_elsewhere base (ts : list FileDetails) w r w' :
  promise_all (map (translateTarget this base) ts) w = (r, w') ->
  same_dirs w w'
  /\ forall q, (forall t, t ∈ ts -> path t <> q) -> w_files w' !! q = w_files w !! q.
Proof.
  revert w r w'. induction ts as [|t ts IH]; intros w r w' Hrun; simpl in Hrun.
  - injection Hrun as <- <-. split; [apply same_dirs_refl | done].
  - destruct (translateTarget this base t w) as [r1 w1] eqn:E1.
    destruct (promise_all (map (translateTarget this base) ts) w1) as [rs w2] eqn:E2.
    injection Hrun as <- <-.
    destruct (translateTarget_effect this base t w r1 w1 E1) as (Hsd1 & Hother1 & _).
    destruct (IH w1 rs w2 E2) as (Hsd2 & Hother2).
    split; [by apply (same_dirs_trans w w1 w2)|].
    intros q Hq. rewrite Hother2, Hother1; [done| |].
    + apply not_eq_sym. intros Heq. apply (Hq t); [apply list_elem_of_here | done].
    + intros t' Ht'. apply Hq. by apply list_elem_of_further.
Qed.

(** [acquireMissingTranslations] in terms of the work on its targets. *)
Lemma acquireMissingTranslations_cases baseFile langs isDir w :
  match w_files w !! path baseFile with
  | Some base =>
      exists r w',
        promise_all (map (translateTarget this base) (map (target baseFile isDir) langs)) w
        = (r, w')
        /\ w_dirs (snd (acquireMissingTranslations this baseFile langs isDir w)) = w_dirs w'
        /\ w_files (snd (acquireMissingTranslations this baseFile langs isDir w)) = w_files w'
  | None =>
      acquireMissingTranslations this baseFile langs isDir w
      = (Ok tt,
         World (w_dirs w) (w_files w)
           (w_log w ++ [LogError "Failed to acquire missing translations"
                          (ModuleNotFound (path baseFile))]))
  end.
Proof.
  destruct (w_files w !! path baseFile) as [base|] eqn:Hbase.
  - rewrite (acquireMissingTranslations_unfold this base) by done.
    destruct (promise_all (map (translateTarget this base)
                             (map (target baseFile isDir) langs)) w) as [r w'].
    exists r, w'. split; [done|]. by destruct r.
  - unfold acquireMissingTranslations, try_catch, bind, require. by rewrite Hbase.
Qed.

End DriverMore.

(** X10: whatever the provider answers, a call of
    [acquireMissingTranslations] adds, removes or changes no entry of any
    file: once the writes it started have finished, every file has exactly
    the entries it had before (the order of the keys written can differ),
    and no file has been created.  The keys of a gap tree are keys of the
    target, and the merge lets the target's values win. *)
Theorem acquireMissingTranslations_keeps_entries (this : TranslateService)
    (baseFile : FileDetails) (langs : list string) (isDir : bool) (w : world) :
  wf_files w ->
  same_entries w (settled (acquireMissingTranslations this baseFile langs isDir w)).
Proof.
  intros Hwf. unfold settled.
  pose proof (acquireMissingTranslations_cases this baseFile langs isDir w) as Hc.
  destruct (w_files w !! path baseFile) as [base|].
  - destruct Hc as (r & w' & Hrun & _ & Hf).
    destruct (targets_same_entries this base _ w r w' Hwf Hrun) as [Hsame _].
    intros q. specialize (Hsame q). by rewrite Hf.
  - rewrite Hc. by apply same_entries_files.
Qed.

Lemma acquireMissingTranslations_keeps_entries_witness :
  same_entries
    (Sample.disk3 [] [("Extra", VStr "Hello")] [("Extra", VStr "Hallo")])
    (settled (acquireMissingTranslations Sample.fr100 Sample.enFile ["de"; "fr"] false
                (Sample.disk3 [] [("Extra", VStr "Hello")] [("Extra", VStr "Hallo")]))).
Proof.
  apply (acquireMissingTranslations_keeps_entries Sample.fr100 Sample.enFile ["de"; "fr"]
           false (Sample.disk3 [] [("Extra", VStr "Hello")] [("Extra", VStr "Hallo")])).
  by_compute.
Defined.

(** X11: two different languages never have the same target path, in
    either layout. *)
Theorem targetPath_distinct (baseFile : FileDetails) (isDir : bool) (x y : string) :
  x <> y -> targetPath baseFile isDir x <> targetPath baseFile isDir y.
Proof. intros Hne Heq. by apply Hne, (targetPath_inj baseFile isDir). Qed.

Lemma targetPath_distinct_witness :
  targetPath Sample.enFile true "fr" <> targetPath Sample.enFile true "de".
Proof. apply (targetPath_distinct Sample.enFile true "fr" "de"). discriminate. Defined.

(** X12: [acquireMissingTranslations] returns normally in every world, it
    creates and removes no directory, and the only files it can touch are
    the target files of the languages it was given. *)
Theorem acquireMissingTranslations_stays_in_targets (this : TranslateService)
    (baseFile : FileDetails) (langs : list string) (isDir : bool) (w : world) :
  let run := acquireMissingTranslations this baseFile langs isDir w in
  fst run = Ok tt
  /\ same_dirs w (snd run)
  /\ (forall q, (forall x, x ∈ langs -> targetPath baseFile isDir x <> q) ->
                w_files (snd run) !! q = w_files w !! q).
Proof.
  intros run. split; [apply acquireMissingTranslations_returns|].
  subst run. pose proof (acquireMissingTranslations_cases this baseFile langs isDir w) as Hc.
  destruct (w_files w !! path baseFile) as [base|].
  - destruct Hc as (r & w' & Hrun & Hd & Hf).
    destruct (targets_elsewhere this base _ w r w' Hrun) as [Hsd Hother].
    split; [intros q; rewrite Hd; apply Hsd|].
    intros q Hq. rewrite Hf. apply Hother.
    intros t Ht. apply list_elem_of_fmap in Ht as (x & -> & Hx). by apply Hq.
  - rewrite Hc. split; [by intros q | done].
Qed.

(** ** src/util.ts and the helpers that create files and folders *)

Section FilesMore.

Lemma existsSync_true q w :
  existsSync q w = true <-> is_Some (w_dirs w !! q) \/ is_Some (w_files w !! q).
Proof.
  unfold existsSync. destruct (w_dirs w !! q) as [d|], (w_files w !! q) as [x|].
  - split; [intros _; left; eauto | done].
  - split; [intros _; left; eauto | done].
  - split; [intros _; right; eauto | done].
  - split; [done | intros [[? [=]]|[? [=]]]].
Qed.

Lemma add_name_elem name names : name ∈ add_name name names.
Proof.
  unfold add_name. destruct (existsb (String.eqb name) names) eqn:E.
  - apply existsb_exists in E as (x & Hx & Heq). apply String.eqb_eq in Heq. subst x.
    by apply list_elem_of_In.
  - apply elem_of_app. right. apply list_elem_of_here.
Qed.

(** What [fs.mkdir] with [recursive] leaves behind when it succeeds. *)
Lemma mkdir_p_effect fuel path w w' :
  mkdir_p fuel path w = Some w' ->
  w_files w' = w_files w /\ w_log w' = w_log w
  /\ is_Some (w_dirs w' !! path)
  /\ (forall q, is_Some (w_dirs w !! q) -> is_Some (w_dirs w' !! q)).
Proof.
  revert path w'. induction fuel as [|fuel IH]; intros path w' H; simpl in H.
  - destruct (w_dirs w !! path) eqn:Ed; [|by destruct (w_files w !! path)].
    injection H as <-. rewrite Ed. eauto.
  - destruct (w_dirs w !! path) eqn:Ed.
    { injection H as <-. rewrite Ed. eauto. }
    destruct (w_files w !! path); [discriminate|].
    destruct (mkdir_p fuel (Path.dirname path) w) as [w1|] eqn:E1; [|discriminate].
    injection H as <-. simpl.
    destruct (IH _ _ E1) as (Hf & Hl & _ & Hmono).
    split; [done|]. split; [done|]. split; [rewrite lookup_insert_eq; eauto|].
    intros q Hq. destruct (decide (q = path)) as [->|Hne].
    + rewrite lookup_insert_eq. eauto.
    + rewrite lookup_insert_ne by done. apply link_is_Some. by apply Hmono.
Qed.

Lemma createDir_effect path w r w' :
  createDir path w = (r, w') ->
  w_files w' = w_files w
  /\ (forall q, existsSync q w = true -> existsSync q w' = true)
  /\ (r = Ok tt -> is_Some (w_dirs w' !! path)).
Proof.
  unfold createDir. destruct (mkdir_p (S (String.length path)) path w) as [w1|] eqn:E.
  - intros [= <- <-]. destruct (mkdir_p_effect _ _ _ _ E) as (Hf & _ & Hp & Hmono).
    split; [done|]. split; [|done].
    intros q Hq. apply existsSync_true. apply existsSync_true in Hq as [Hq|Hq].
    + left. by apply Hmono.
    + right. by rewrite Hf.
  - intros [= <- <-]. split; [done|]. split; [done|]. discriminate.
Qed.

Lemma writeFile_exists path data w r w' :
  writeFile path data w = (r, w') ->
  (forall q, existsSync q w = true -> existsSync q w' = true)
  /\ (r = Ok tt -> existsSync path w' = true).
Proof.
  intros H. destruct (writeFile_cases path data w) as [[_ Hw]|[_ Hw]];
    rewrite Hw in H; injection H as <- <-.
  - split.
    + intros q Hq. apply existsSync_true. apply existsSync_true in Hq as [Hq|Hq]; simpl.
      * left. by apply link_is_Some.
      * right. destruct (decide (q = path)) as [->|Hne];
          [rewrite lookup_insert_eq; eauto | by rewrite lookup_insert_ne].
    + intros _. apply existsSync_true. right. simpl. rewrite lookup_insert_eq. eauto.
  - split; [done | discriminate].
Qed.

End FilesMore.

(** X14: [createDir] never changes a file and never removes a directory or
    a file; on a path that is already a directory it succeeds and changes
    nothing; when it succeeds the path is a directory; and when a file has
    that path it rejects with ["Failed to create directory "] and the
    path. *)
Theorem createDir_outcomes (path : string) (w : world) :
  let run := createDir path w in
  w_files (snd run) = w_files w
  /\ (forall q, existsSync q w = true -> existsSync q (snd run) = true)
  /\ (isDirectory path w = true -> run = (Ok tt, w))
  /\ (fst run = Ok tt -> isDirectory path (snd run) = true)
  /\ (isDirectory path w = false -> existsSync path w = true ->
      run = (Throw (Rejected ("Failed to create directory " +:+ path)), w)).
Proof.
  intros run. subst run.
  destruct (createDir path w) as [r w'] eqn:E.
  destruct (createDir_effect path w r w' E) as (Hf & Hmono & Hok). simpl.
  split; [done|]. split; [done|]. split; [|split].
  - unfold isDirectory. intros Hd. rewrite <- E. unfold createDir. simpl.
    by destruct (w_dirs w !! path).
  - intros ->. unfold isDirectory. by destruct (Hok eq_refl) as [x ->].
  - unfold isDirectory, existsSync. intros Hd He. rewrite <- E. unfold createDir. simpl.
    destruct (w_dirs w !! path); [discriminate|].
    by destruct (w_files w !! path).
Qed.

Section EmptyFiles.

Variables (f : string -> string) (w0 : world).

(** The tasks of [createEmptyFiles], [f] giving the file to check. *)
Lemma empty_files_effect (ls : list string) w r w' :
  promise_all
    (map (fun language => createIfMissing (fun p => writeFile p []) w0 (f language)) ls) w
  = (r, w') ->
  (forall q doc, w_files w0 !! q = Some doc -> w_files w !! q = Some doc) ->
  (forall q, existsSync q w0 = true -> existsSync q w = true) ->
  (forall q doc, w_files w0 !! q = Some doc -> w_files w' !! q = Some doc)
  /\ (forall q, existsSync q w = true -> existsSync q w' = true)
  /\ ((exists l, r = Ok l) -> forall language, language ∈ ls ->
        existsSync (f language) w' = true)
  /\ (forall q doc, w_files w' !! q = Some doc ->
        w_files w !! q = Some doc
        \/ (doc = [] /\ exists language, language ∈ ls /\ q = f language)).
Proof.
  revert w r w'. induction ls as [|x ls IH]; intros w r w' Hrun Hkeep Hexists; simpl in Hrun.
  - injection Hrun as <- <-. split; [done|]. split; [done|]. split; [|auto].
    intros _ language H. by apply elem_of_nil in H.
  - destruct (createIfMissing (fun p => writeFile p []) w0 (f x) w) as [r1 w1] eqn:E1.
    destruct (promise_all
                (map (fun language => createIfMissing (fun p => writeFile p []) w0 (f language))
                   ls) w1) as [rs w2] eqn:E2.
    injection Hrun as <- <-.
    assert ((forall q doc, w_files w0 !! q = Some doc -> w_files w1 !! q = Some doc)
            /\ (forall q, existsSync q w = true -> existsSync q w1 = true)
            /\ (r1 = Ok tt -> existsSync (f x) w1 = true)
            /\ (forall q doc, w_files w1 !! q = Some doc ->
                  w_files w !! q = Some doc \/ (doc = [] /\ q = f x)))
      as (Hkeep1 & Hmono1 & Hhead & Hnew1).
    { unfold createIfMissing in E1. destruct (existsSync (f x) w0) eqn:Ex; simpl in E1.
      - injection E1 as <- <-. split; [done|]. split; [done|]. split; [|auto].
        intros _. by apply Hexists.
      - destruct (writeFile_exists _ _ _ _ _ E1) as [Hm Hh].
        destruct (writeFile_cases (f x) [] w) as [[_ Hw]|[_ Hw]];
          rewrite Hw in E1; injection E1 as <- <-.
        + split; [|split; [done|split; [done|]]].
          * intros q doc Hq. simpl. rewrite lookup_insert_ne; [by apply Hkeep|].
            intros <-. unfold existsSync in Ex. rewrite Hq in Ex.
            by destruct (w_dirs w0 !! f x).
          * intros q doc. simpl. destruct (decide (q = f x)) as [->|Hne].
            -- rewrite lookup_insert_eq. intros [= <-]. auto.
            -- rewrite lookup_insert_ne by done. auto.
        + split; [done|]. split; [done|]. split; [done | auto]. }
    destruct (IH w1 rs w2 E2 Hkeep1) as (Hkeep2 & Hmono2 & Hall & Hnew2).
    { intros q Hq. by apply Hmono1, Hexists. }
    split; [done|]. split; [intros q Hq; by apply Hmono2, Hmono1|]. split.
    + intros [l Hl] language Hin. destruct r1 as [[]|e]; [|discriminate].
      destruct rs as [l'|e]; [|discriminate].
      apply elem_of_cons in Hin as [->|Hin]; [by apply Hmono2, Hhead | apply Hall; eauto].
    + intros q doc Hq. apply Hnew2 in Hq as [Hq|(-> & language & Hin & ->)].
      * apply Hnew1 in Hq as [Hq|[-> ->]]; [auto|].
        right. split; [done|]. exists x. split; [apply list_elem_of_here | done].
      * right. split; [done|]. exists language. split; [by apply list_elem_of_further | done].
Qed.

End EmptyFiles.

Section EmptyFolders.

Variables (g : string -> string) (w0 : world).

(** The tasks of [createEmptyFolders], [g] giving the folder to check. *)
Lemma empty_folders_effect (ls : list string) w r w' :
  promise_all (map (fun language => createIfMissing createDir w0 (g language)) ls) w
  = (r, w') ->
  (forall q, existsSync q w0 = true -> existsSync q w = true) ->
  w_files w' = w_files w
  /\ (forall q, existsSync q w = true -> existsSync q w' = true)
  /\ ((exists l, r = Ok l) -> forall language, language ∈ ls ->
        existsSync (g language) w' = true).
Proof.
  revert w r w'. induction ls as [|x ls IH]; intros w r w' Hrun Hexists; simpl in Hrun.
  - injection Hrun as <- <-. split; [done|]. split; [done|].
    intros _ language H. by apply elem_of_nil in H.
  - destruct (createIfMissing createDir w0 (g x) w) as [r1 w1] eqn:E1.
    destruct (promise_all (map (fun language => createIfMissing createDir w0 (g language)) ls)
                w1) as [rs w2] eqn:E2.
    injection Hrun as <- <-.
    assert (w_files w1 = w_files w
            /\ (forall q, existsSync q w = true -> existsSync q w1 = true)
            /\ (r1 = Ok tt -> existsSync (g x) w1 = true)) as (Hf1 & Hmono1 & Hhead).
    { unfold createIfMissing in E1. destruct (existsSync (g x) w0) eqn:Ex; simpl in E1.
      - injection E1 as <- <-. split; [done|]. split; [done|]. intros _. by apply Hexists.
      - destruct (createDir_effect _ _ _ _ E1) as (Hf & Hm & Hok).
        split; [done|]. split; [done|]. intros Hr. apply existsSync_true. left. by apply Hok. }
    destruct (IH w1 rs w2 E2) as (Hf2 & Hmono2 & Hall).
    { intros q Hq. by apply Hmono1, Hexists. }
    split; [by rewrite Hf2|]. split; [intros q Hq; by apply Hmono2, Hmono1|].
    intros [l Hl] language Hin. destruct r1 as [[]|e]; [|discriminate].
    destruct rs as [l'|e]; [|discriminate].
    apply elem_of_cons in Hin as [->|Hin]; [by apply Hmono2, Hhead | apply Hall; eauto].
Qed.

End EmptyFolders.

(** X15: with languages configured, [createEmptyFiles] never changes a
    file that exists; the files it adds are empty documents at the paths it
    checks for the configured languages; and when it succeeds every one of
    those paths exists. *)
Theorem createEmptyFiles_effect (this : TranslateService) (reference : TranslateReference)
    (baseFile : FileDetails) (isDir : bool) (w : world) (ls : list string) :
  languages (config this) = Some ls ->
  let run := createEmptyFiles this reference baseFile isDir w in
  (forall q doc, w_files w !! q = Some doc -> w_files (snd run) !! q = Some doc)
  /\ (fst run = Ok tt -> forall language, language ∈ ls ->
        existsSync (fileToCheck reference baseFile isDir language) (snd run) = true)
  /\ (forall q doc, w_files (snd run) !! q = Some doc ->
        w_files w !! q = Some doc
        \/ (doc = [] /\ exists language,
              language ∈ ls /\ q = fileToCheck reference baseFile isDir language)).
Proof.
  intros Hls run. subst run.
  unfold createEmptyFiles, config_languages_map, bind, ret. rewrite Hls.
  pose proof (empty_files_effect (fileToCheck reference baseFile isDir) w ls w) as Heff.
  unfold createIfMissing, fileToCheck in Heff. unfold fileToCheck.
  match goal with |- context [promise_all ?ts w] =>
    destruct (promise_all ts w) as [r w'] eqn:E end.
  destruct (Heff r w' E) as (Hkeep & _ & Hall & Hnew); [done..|].
  destruct r as [l|e]; simpl.
  - split; [done|]. split; [|done]. intros _. apply Hall. eauto.
  - split; [done|]. split; [discriminate | done].
Qed.

Lemma createEmptyFiles_effect_witness :
  let this := Sample.service (Some ["fr"; "de"]) 100 false "/i18n/en.json" in
  let reference := {| ref_path := "/i18n/en.json"; ref_inject := None |} in
  let baseFile := {| lang := "en"; path := "en.json" |} in
  let w := Sample.disk [("Title", VStr "Hello")] [("Title", VStr "Bonjour")] in
  let run := createEmptyFiles this reference baseFile false w in
  (forall q doc, w_files w !! q = Some doc -> w_files (snd run) !! q = Some doc)
  /\ (fst run = Ok tt -> forall language, language ∈ ["fr"; "de"] ->
        existsSync (fileToCheck reference baseFile false language) (snd run) = true)
  /\ (forall q doc, w_files (snd run) !! q = Some doc ->
        w_files w !! q = Some doc
        \/ (doc = [] /\ exists language,
              language ∈ ["fr"; "de"] /\ q = fileToCheck reference baseFile false language)).
Proof.
  apply (createEmptyFiles_effect
           (Sample.service (Some ["fr"; "de"]) 100 false "/i18n/en.json")
           {| ref_path := "/i18n/en.json"; ref_inject := None |}
           {| lang := "en"; path := "en.json" |} false
           (Sample.disk [("Title", VStr "Hello")] [("Title", VStr "Bonjour")])
           ["fr"; "de"]).
  reflexivity.
Defined.

(** X16: [createEmptyFolders] never changes a file and never removes
    anything; with languages configured, when it succeeds the folder of
    every configured language exists. *)
Theorem createEmptyFolders_effect (this : TranslateService) (reference : TranslateReference)
    (w : world) (ls : list string) :
  languages (config this) = Some ls ->
  let run := createEmptyFolders this reference w in
  w_files (snd run) = w_files w
  /\ (forall q, existsSync q w = true -> existsSync q (snd run) = true)
  /\ (fst run = Ok tt -> forall language, language ∈ ls ->
        existsSync (folderToCheck reference language) (snd run) = true).
Proof.
  intros Hls run. subst run.
  unfold createEmptyFolders, config_languages_map, bind, ret. rewrite Hls.
  pose proof (empty_folders_effect (folderToCheck reference) w ls w) as Heff.
  unfold createIfMissing, folderToCheck in Heff. unfold folderToCheck.
  match goal with |- context [promise_all ?ts w] =>
    destruct (promise_all ts w) as [r w'] eqn:E end.
  destruct (Heff r w' E) as (Hf & Hmono & Hall); [done|].
  destruct r as [l|e]; simpl.
  - split; [done|]. split; [done|]. intros _. apply Hall. eauto.
  - split; [done|]. split; [done | discriminate].
Qed.

Lemma createEmptyFolders_effect_witness :
  let this := Sample.service (Some ["fr"; "it"]) 100 false "/i18n/en" in
  let reference := {| ref_path := "/i18n/en"; ref_inject := None |} in
  let run := createEmptyFolders this reference Sample.tree in
  w_files (snd run) = w_files Sample.tree
  /\ (forall q, existsSync q Sample.tree = true -> existsSync q (snd run) = true)
  /\ (fst run = Ok tt -> forall language, language ∈ ["fr"; "it"] ->
        existsSync (folderToCheck reference language) (snd run) = true).
Proof.
  apply (createEmptyFolders_effect (Sample.service (Some ["fr"; "it"]) 100 false "/i18n/en")
           {| ref_path := "/i18n/en"; ref_inject := None |} Sample.tree ["fr"; "it"]).
  reflexivity.
Defined.

(** In that world the Italian folder is created and listed. *)
Example createEmptyFolders_sample :
  let this := Sample.service (Some ["fr"; "it"]) 100 false "/i18n/en" in
  let run := createEmptyFolders this {| ref_path := "/i18n/en"; ref_inject := None |}
               Sample.tree in
  fst run = Ok tt
  /\ w_dirs (snd run) !! "/i18n/it" = Some []
  /\ w_dirs (snd run) !! "/i18n" = Some ["en"; "fr"; "de"; "it"].
Proof. repeat split; vm_compute; reflexivity. Qed.

(** ** Resolving the files of a reference, continued *)

Section PathFacts.

Lemma basename_scan_name (r : list ascii) (i : nat) (m : bool) (e : nat) :
  (forall c, c ∈ r -> Path.is_slash c = false) ->
  Path.basename_scan r i m (Some e) = (0, Some e).
Proof.
  revert i. induction r as [|c r IH]; intros i Hr; simpl; [done|].
  rewrite (Hr c) by apply list_elem_of_here.
  apply IH. intros c' Hc'. apply Hr. by apply list_elem_of_further.
Qed.

Lemma basename_scan_slash (r1 r2 : list ascii) (j e : nat) :
  (forall c, c ∈ r1 -> Path.is_slash c = false) ->
  Path.basename_scan (r1 ++ "/"%char :: r2) j false (Some e) = (S (j - length r1), Some e).
Proof.
  revert j. induction r1 as [|c r1 IH]; intros j Hr; simpl.
  - by rewrite Nat.sub_0_r.
  - rewrite (Hr c) by apply list_elem_of_here.
    rewrite IH by (intros c' Hc'; apply Hr; by apply list_elem_of_further).
    do 2 f_equal. lia.
Qed.

(** The last component of a path that ends in a bare name is that name. *)
Lemma basename_of_path (d n : string) :
  String.length n <> 0 ->
  (forall c, c ∈ list_ascii_of_string n -> Path.is_slash c = false) ->
  Path.basename (d +:+ "/" +:+ n) = n.
Proof.
  intros Hlen Hn. unfold Path.basename.
  rewrite !list_ascii_of_string_append. simpl.
  set (ds := list_ascii_of_string d). set (ns := list_ascii_of_string n).
  assert (length ns <> 0) as Hns.
  { subst ns. intros H. apply Hlen. rewrite <- (string_of_list_ascii_of_string n).
    by destruct (list_ascii_of_string n). }
  rewrite rev_app_distr. simpl. rewrite <- app_assoc. simpl.
  destruct (rev ns) as [|c r1] eqn:Hrev.
  { apply (f_equal (@length ascii)) in Hrev. rewrite length_rev in Hrev. done. }
  assert (forall c', c' ∈ c :: r1 -> Path.is_slash c' = false) as Hr.
  { intros c' Hc'. apply Hn. rewrite <- Hrev in Hc'.
    apply list_elem_of_In. apply list_elem_of_In in Hc'. by apply (proj2 (in_rev ns c')). }
  simpl. rewrite (Hr c) by apply list_elem_of_here.
  rewrite basename_scan_slash
    by (intros c' Hc'; apply Hr; by apply list_elem_of_further).
  assert (length r1 = Nat.pred (length ns)) as Hl1.
  { apply (f_equal (@length ascii)) in Hrev. rewrite length_rev in Hrev. simpl in Hrev. lia. }
  rewrite length_app. simpl.
  replace (S (Nat.pred (Nat.pred (length ds + S (length ns))) - length r1)) with (S (length ds))
    by lia.
  replace (S (Nat.pred (length ds + S (length ns)))) with (length (ds ++ "/"%char :: ns))
    by (rewrite length_app; simpl; lia).
  rewrite firstn_all.
  replace (S (length ds)) with (length (ds ++ ["/"%char])) by (rewrite length_app; simpl; lia).
  replace (ds ++ "/"%char :: ns) with ((ds ++ ["/"%char]) ++ ns) by (by rewrite <- app_assoc).
  rewrite skipn_app, skipn_all, Nat.sub_diag. simpl.
  subst ns. apply string_of_list_ascii_of_string.
Qed.

(** The last component of a bare name is the name itself. *)
Lemma basename_of_name (n : string) :
  (forall c, c ∈ list_ascii_of_string n -> Path.is_slash c = false) ->
  Path.basename n = n.
Proof.
  intros Hn. unfold Path.basename.
  set (ns := list_ascii_of_string n) in *.
  destruct (rev ns) as [|c r1] eqn:Hrev.
  - apply (f_equal (@rev ascii)) in Hrev. rewrite rev_involutive in Hrev. simpl in Hrev.
    simpl. rewrite <- (string_of_list_ascii_of_string n). fold ns. by rewrite Hrev.
  - assert (forall c', c' ∈ c :: r1 -> Path.is_slash c' = false) as Hr.
    { intros c' Hc'. apply Hn. rewrite <- Hrev in Hc'.
      apply list_elem_of_In. apply list_elem_of_In in Hc'. by apply (proj2 (in_rev ns c')). }
    simpl. rewrite (Hr c) by apply list_elem_of_here.
    rewrite basename_scan_name by (intros c' Hc'; apply Hr; by apply list_elem_of_further).
    assert (length ns <> 0) as Hns.
    { apply (f_equal (@length ascii)) in Hrev. rewrite length_rev in Hrev. simpl in Hrev. lia. }
    replace (S (Nat.pred (length ns))) with (length ns) by lia.
    rewrite firstn_all. simpl. apply string_of_list_ascii_of_string.
Qed.

(** Stripping [.json] from a name without other dots. *)
Lemma replace_json (s : string) :
  forallb (fun c => negb (Ascii.eqb c "."%char)) (list_ascii_of_string s) = true ->
  replace ".json" EmptyString (s +:+ ".json") = s.
Proof.
  induction s as [|c s IH]; intros Hs; [reflexivity|].
  simpl in Hs. apply andb_true_iff in Hs as [Hc Hs].
  apply negb_true_iff in Hc.
  change (String c s +:+ ".json") with (String c (s +:+ ".json")).
  cbn [replace String.prefix].
  destruct (Ascii.ascii_dec "."%char c) as [<-|Hne]; [done|].
  by rewrite IH.
Qed.

Lemma is_code_parts (s : string) :
  is_code s = true ->
  String.length s <> 0
  /\ (forall c, c ∈ list_ascii_of_string s -> Path.is_slash c = false)
  /\ forallb (fun c => negb (Ascii.eqb c "."%char)) (list_ascii_of_string s) = true.
Proof.
  unfold is_code. intros H. apply andb_true_iff in H as [Hlen Hall].
  split; [apply negb_true_iff, Nat.eqb_neq in Hlen; done|].
  rewrite forallb_forall in Hall. split.
  - intros c Hc. apply list_elem_of_In, Hall, andb_true_iff in Hc as [Hc _].
    by apply negb_true_iff in Hc.
  - apply forallb_forall. intros c Hc. apply Hall, andb_true_iff in Hc as [_ Hc]. done.
Qed.

(** The name [code.json] of a plain code: its last component is itself and
    its language is the code. *)
Lemma language_of_json_name (code : string) :
  is_code code = true ->
  (forall c, c ∈ list_ascii_of_string (code +:+ ".json") -> Path.is_slash c = false)
  /\ replace ".json" EmptyString (Path.basename (code +:+ ".json")) = code.
Proof.
  intros Hcode. destruct (is_code_parts code Hcode) as (_ & Hslash & Hdot).
  assert (forall c, c ∈ list_ascii_of_string (code +:+ ".json") -> Path.is_slash c = false)
    as Hname.
  { intros c Hc. rewrite list_ascii_of_string_append in Hc.
    apply elem_of_app in Hc as [Hc|Hc]; [by apply Hslash|].
    simpl in Hc. repeat (apply elem_of_cons in Hc as [->|Hc]; [done|]).
    by apply elem_of_nil in Hc. }
  split; [done|]. rewrite basename_of_name by done. by apply replace_json.
Qed.

End PathFacts.

Section ResolverMore.

Lemma dedup_spec (seen xs : list string) :
  NoDup (dedup seen xs)
  /\ forall x, x ∈ dedup seen xs <-> x ∈ xs /\ x ∉ seen.
Proof.
  revert seen. induction xs as [|y xs IH]; intros seen; simpl.
  - split; [constructor|]. intros x. split; [by intros ?%elem_of_nil|].
    by intros [?%elem_of_nil _].
  - destruct (existsb (String.eqb y) seen) eqn:E.
    + apply existsb_exists in E as (z & Hz & Heq). apply String.eqb_eq in Heq. subst z.
      apply list_elem_of_In in Hz.
      destruct (IH seen) as [Hnd Hmem]. split; [done|]. intros x. rewrite Hmem.
      rewrite elem_of_cons. split; [tauto|]. intros [[->|Hx] Hout]; [done | tauto].
    + assert (y ∉ seen) as Hy.
      { intros Hin. apply list_elem_of_In in Hin.
        assert (existsb (String.eqb y) seen = true) as Ht; [|congruence].
        apply existsb_exists. exists y. split; [done | apply String.eqb_refl]. }
      destruct (IH (y :: seen)) as [Hnd Hmem]. split.
      * apply NoDup_cons. split; [|done]. rewrite Hmem.
        intros [_ Hout]. apply Hout, list_elem_of_here.
      * intros x. rewrite !elem_of_cons, Hmem, not_elem_of_cons.
        destruct (decide (x = y)) as [->|Hne]; [tauto|]. tauto.
Qed.

(** A list of tasks that all throw [e] without changing the world. *)
Lemma promise_all_throws {A : Type} (t : M A) (ts : list (M A)) (e : exn) w :
  (forall t', t' ∈ t :: ts -> t' w = (Throw e, w)) ->
  promise_all (t :: ts) w = (Throw e, w).
Proof.
  revert t. induction ts as [|t2 ts IH]; intros t H; simpl.
  - by rewrite (H t) by apply list_elem_of_here.
  - rewrite (H t) by apply list_elem_of_here.
    specialize (IH t2). simpl in IH. rewrite IH; [done|].
    intros t' Ht'. apply H. by apply list_elem_of_further.
Qed.

End ResolverMore.

(** X17: in single-file mode the resolver gives one descriptor per entry of
    the directory of the reference, in order, with the entry as its path.
    For plain language codes the languages are as the file names say: an
    entry [code.json] has language [code], a reference path
    [dir/code.json] has reference language [code], and so the reference's
    own entry is among the base files. *)
Theorem getJSONFiles_languages (reference : TranslateReference) (w : world)
    (listing : list string) :
  w_dirs w !! Path.dirname (ref_path reference) = Some listing ->
  exists files,
    getJSONFiles reference w = (Ok files, w)
    /\ map path (result_ files) = listing
    /\ (forall code, is_code code = true -> code +:+ ".json" ∈ listing ->
          {| lang := code; path := code +:+ ".json" |} ∈ result_ files)
    /\ (forall dir code, is_code code = true ->
          ref_path reference = dir +:+ "/" +:+ code +:+ ".json" ->
          referenceLanguage files = code
          /\ (code +:+ ".json" ∈ listing ->
              {| lang := code; path := code +:+ ".json" |} ∈ baseFilesOf files)).
Proof.
  intros Hdir. unfold getJSONFiles, bind, dirFiles, ret. rewrite Hdir.
  eexists. split; [reflexivity|]. cbn [result_ referenceLanguage].
  assert (forall code, is_code code = true -> code +:+ ".json" ∈ listing ->
            {| lang := code; path := code +:+ ".json" |}
              ∈ map (fun x => {| lang := replace ".json" EmptyString (Path.basename x);
                                 path := x |}) listing) as Hentry.
  { intros code Hcode Hin. apply list_elem_of_fmap. exists (code +:+ ".json").
    split; [|done]. destruct (language_of_json_name code Hcode) as [_ ->]. done. }
  split; [|split; [done|]].
  - rewrite map_map. simpl. apply map_id.
  - intros dir code Hcode Hpath.
    destruct (language_of_json_name code Hcode) as [Hname Hlang].
    assert (replace ".json" EmptyString (Path.basename (ref_path reference)) = code) as Href.
    { rewrite basename_of_name in Hlang by done.
      rewrite Hpath, basename_of_path; [done| |done].
      destruct code; cbv; discriminate. }
    split; [done|]. intros Hin. unfold baseFilesOf. cbn [result_ referenceLanguage].
    apply list_elem_of_In, filter_In. split; [by apply list_elem_of_In, Hentry|].
    simpl. rewrite Href. apply String.eqb_refl.
Qed.

Lemma getJSONFiles_languages_witness :
  exists files,
    getJSONFiles {| ref_path := "/i18n/en.json"; ref_inject := None |} Sample.disk_stray
    = (Ok files, Sample.disk_stray)
    /\ map path (result_ files) = ["en.json"; "fr.json"; "old"]
    /\ (forall code, is_code code = true -> code +:+ ".json" ∈ ["en.json"; "fr.json"; "old"] ->
          {| lang := code; path := code +:+ ".json" |} ∈ result_ files)
    /\ (forall dir code, is_code code = true ->
          ref_path {| ref_path := "/i18n/en.json"; ref_inject := None |}
          = dir +:+ "/" +:+ code +:+ ".json" ->
          referenceLanguage files = code
          /\ (code +:+ ".json" ∈ ["en.json"; "fr.json"; "old"] ->
              {| lang := code; path := code +:+ ".json" |} ∈ baseFilesOf files)).
Proof.
  apply (getJSONFiles_languages {| ref_path := "/i18n/en.json"; ref_inject := None |}
           Sample.disk_stray ["en.json"; "fr.json"; "old"]).
  reflexivity.
Defined.

(** X18: in directory mode, when the entries of the parent directory are
    bare names, as [readdir] gives them, every descriptor resolved has the
    language ["."], the world is left as it was, and unless the reference
    itself is named ["."] no descriptor is kept as a base file. *)
Theorem getDirectoryFiles_all_dot (reference : TranslateReference) (w w' : world)
    (files : Resolved) (directories : list string) :
  w_dirs w !! Path.dirname (ref_path reference) = Some directories ->
  (forall name c, name ∈ directories -> c ∈ list_ascii_of_string name ->
     Path.is_slash c = false) ->
  getDirectoryFiles reference w = (Ok files, w') ->
  (forall fd, fd ∈ result_ files -> lang fd = ".")
  /\ referenceLanguage files = Path.basename (ref_path reference)
  /\ (Path.basename (ref_path reference) <> "." -> baseFilesOf files = []).
Proof.
  intros Hdir Hbare Hrun.
  assert (forall fd, fd ∈ result_ files -> lang fd = ".") as Hdot.
  { intros fd Hfd.
    destruct (getDirectoryFiles_languages reference w files w' Hrun fd Hfd)
      as (ds & name & Hds & Hname & ->).
    rewrite Hdir in Hds. injection Hds as <-.
    apply dirname_of_name. intros c Hc. by apply (Hbare name). }
  assert (referenceLanguage files = Path.basename (ref_path reference)) as Href.
  { unfold getDirectoryFiles, bind, dirFiles in Hrun. rewrite Hdir in Hrun.
    destruct (promise_all _ w) as [[listings|e] w1]; [|discriminate].
    by injection Hrun as <- <-. }
  split; [done|]. split; [done|].
  intros Hne. unfold baseFilesOf.
  destruct (List.filter _ (result_ files)) as [|fd l] eqn:E; [done|].
  assert (In fd (fd :: l)) as Hin by (by left).
  rewrite <- E in Hin. apply filter_In in Hin as [Hin Heq].
  apply String.eqb_eq in Heq. apply list_elem_of_In in Hin.
  rewrite (Hdot fd Hin), Href in Heq. by destruct Hne.
Qed.

Lemma getDirectoryFiles_all_dot_witness :
  let reference := {| ref_path := "/i18n/en"; ref_inject := None |} in
  let files := {| result_ := [ {| lang := "."; path := "common.json" |};
                               {| lang := "."; path := "common.json" |};
                               {| lang := "."; path := "common.json" |} ];
                  referenceLanguage := "en" |} in
  (forall fd, fd ∈ result_ files -> lang fd = ".")
  /\ referenceLanguage files = Path.basename (ref_path reference)
  /\ (Path.basename (ref_path reference) <> "." -> baseFilesOf files = []).
Proof.
  apply (getDirectoryFiles_all_dot {| ref_path := "/i18n/en"; ref_inject := None |}
           Sample.tree Sample.tree
           {| result_ := [ {| lang := "."; path := "common.json" |};
                           {| lang := "."; path := "common.json" |};
                           {| lang := "."; path := "common.json" |} ];
              referenceLanguage := "en" |}
           ["en"; "fr"; "de"]).
  - reflexivity.
  - intros name c Hname Hc.
    repeat (apply elem_of_cons in Hname as [->|Hname];
            [vm_compute in Hc;
             repeat (apply elem_of_cons in Hc as [->|Hc]; [reflexivity|]);
             by apply elem_of_nil in Hc|]).
    by apply elem_of_nil in Hname.
  - vm_compute. reflexivity.
Defined.

(** X19: the effective languages of a reference are the configured ones
    when there are any; otherwise they are the languages of the resolved
    descriptors, each exactly once. *)
Theorem effectiveLanguages_spec (this : TranslateService) (files : Resolved) :
  match languages (config this) with
  | Some ls => effectiveLanguages this files = ls
  | None =>
      NoDup (effectiveLanguages this files)
      /\ forall x, x ∈ effectiveLanguages this files
                   <-> exists fd, fd ∈ result_ files /\ lang fd = x
  end.
Proof.
  unfold effectiveLanguages. destruct (languages (config this)) as [ls|]; [done|].
  destruct (dedup_spec [] (map lang (result_ files))) as [Hnd Hmem].
  split; [done|]. intros x. rewrite Hmem. split.
  - intros [Hx _]. apply list_elem_of_fmap in Hx as (fd & -> & Hfd). by exists fd.
  - intros (fd & Hfd & <-). split; [|apply not_elem_of_nil].
    apply list_elem_of_fmap. by exists fd.
Qed.

(** X20: with no languages configured, [runReference] rejects with the
    [TypeError] of reading [map] of [undefined] as soon as the reference
    resolves in directory mode, or resolves with at least one base file in
    single-file mode; nothing has been created, logged or translated. *)
Theorem runReference_needs_languages (this : TranslateService)
    (reference : TranslateReference) (w : world) (files : Resolved) :
  languages (config this) = None ->
  (if existsSync (ref_path reference) w && isDirectory (ref_path reference) w
   then getDirectoryFiles reference w = (Ok files, w)
   else getJSONFiles reference w = (Ok files, w) /\ baseFilesOf files <> []) ->
  runReference this reference w
  = (Throw (TypeError "Cannot read properties of undefined (reading 'map')"), w).
Proof.
  intros Hnone Hres. unfold runReference, bind.
  destruct (existsSync (ref_path reference) w && isDirectory (ref_path reference) w).
  - rewrite Hres. by rewrite createEmptyFolders_needs_languages.
  - destruct Hres as [-> Hbase]. unfold ret. fold (baseFilesOf files).
    destruct (baseFilesOf files) as [|x xs]; [done|]. clear Hbase.
    change (map (fun x0 => createEmptyFiles this reference x0 false) (x :: xs))
      with (createEmptyFiles this reference x false
              :: map (fun x0 => createEmptyFiles this reference x0 false) xs).
    rewrite (promise_all_throws _ _
               (TypeError "Cannot read properties of undefined (reading 'map')")); [done|].
    intros t Ht. apply elem_of_cons in Ht as [->|Ht].
    + by apply createEmptyFiles_needs_languages.
    + apply list_elem_of_fmap in Ht as (y & -> & _).
      by apply createEmptyFiles_needs_languages.
Qed.

Lemma runReference_needs_languages_witness :
  runReference (Sample.service None 100 false "/i18n/en.json")
    {| ref_path := "/i18n/en.json"; ref_inject := None |} (Sample.disk [] [])
  = (Throw (TypeError "Cannot read properties of undefined (reading 'map')"),
     Sample.disk [] []).
Proof.
  apply (runReference_needs_languages (Sample.service None 100 false "/i18n/en.json")
           {| ref_path := "/i18n/en.json"; ref_inject := None |} (Sample.disk [] [])
           {| result_ := [ {| lang := "en"; path := "en.json" |};
                           {| lang := "fr"; path := "fr.json" |} ];
              referenceLanguage := "en" |}).
  - reflexivity.
  - vm_compute. split; [reflexivity | discriminate].
Defined.

(** X21: when the directory of the reference cannot be listed,
    [runReference] rejects with ["Failed to acquire file listing in "] and
    that directory, in either mode, and leaves the world as it was. *)
Theorem runReference_unlisted (this : TranslateService) (reference : TranslateReference)
    (w : world) :
  w_dirs w !! Path.dirname (ref_path reference) = None ->
  runReference this reference w
  = (Throw (Rejected ("Failed to acquire file listing in "
                        +:+ Path.dirname (ref_path reference))), w).
Proof.
  intros Hdir. unfold runReference, bind.
  destruct (existsSync (ref_path reference) w && isDirectory (ref_path reference) w).
  - unfold getDirectoryFiles, bind, dirFiles. by rewrite Hdir.
  - unfold getJSONFiles, bind, dirFiles. by rewrite Hdir.
Qed.

Lemma runReference_unlisted_witness :
  runReference Sample.fr100 {| ref_path := "/missing/en.json"; ref_inject := None |}
    (Sample.disk [] [])
  = (Throw (Rejected ("Failed to acquire file listing in "
                        +:+ Path.dirname "/missing/en.json")), Sample.disk [] []).
Proof.
  apply (runReference_unlisted Sample.fr100
           {| ref_path := "/missing/en.json"; ref_inject := None |} (Sample.disk [] [])).
  reflexivity.
Defined.

(** ** The whole run *)

Section RunMore.

Variable this : TranslateService.

Lemma harmless_files w w' : w_files w' = w_files w -> harmless w w'.
Proof.
  intros Hf Hwf. unfold wf_files. rewrite Hf. split; [done|]. split.
  - intros q doc Hq. by exists doc.
  - intros q doc' Hq. left. by exists doc'.
Qed.

Lemma harmless_refl w : harmless w w.
Proof. by apply harmless_files. Qed.

Lemma harmless_trans w1 w2 w3 : harmless w1 w2 -> harmless w2 w3 -> harmless w1 w3.
Proof.
  intros H12 H23 Hwf. destruct (H12 Hwf) as (Hwf2 & Hk12 & Hn12).
  destruct (H23 Hwf2) as (Hwf3 & Hk23 & Hn23). split; [done|]. split.
  - intros q doc Hq. destruct (Hk12 q doc Hq) as (doc2 & Hq2 & Hp2).
    destruct (Hk23 q doc2 Hq2) as (doc3 & Hq3 & Hp3). exists doc3. split; [done|]. by etrans.
  - intros q doc3 Hq3. destruct (Hn23 q doc3 Hq3) as [(doc2 & Hq2 & Hp3)| ->]; [|by right].
    destruct (Hn12 q doc2 Hq2) as [(doc & Hq & Hp2)| ->].
    + left. exists doc. split; [done|]. by etrans.
    + right. by apply Permutation_nil_r in Hp3.
Qed.

Lemma bind_harmless {A B : Type} (m : M A) (k : A -> M B) w :
  harmless w (snd (m w)) ->
  (forall a w1, harmless w1 (snd (k a w1))) ->
  harmless w (snd (bind m k w)).
Proof.
  intros Hm Hk. unfold bind. destruct (m w) as [[a|e] w1]; simpl in *; [|done].
  by apply (harmless_trans w w1).
Qed.

Lemma promise_all_harmless {A : Type} (ts : list (M A)) :
  (forall t, t ∈ ts -> forall w, harmless w (snd (t w))) ->
  forall w, harmless w (snd (promise_all ts w)).
Proof.
  induction ts as [|t ts IH]; intros Hts w; simpl; [apply harmless_refl|].
  destruct (t w) as [r1 w1] eqn:E1.
  destruct (promise_all ts w1) as [rs w2] eqn:E2. simpl.
  apply (harmless_trans w w1 w2).
  - specialize (Hts t (list_elem_of_here _ _) w). by rewrite E1 in Hts.
  - specialize (IH (fun t' Ht' => Hts t' (list_elem_of_further _ _ _ Ht')) w1).
    by rewrite E2 in IH.
Qed.

Lemma dirFiles_world p w : snd (dirFiles p w) = w.
Proof. unfold dirFiles. by destruct (w_dirs w !! p). Qed.

Lemma getJSONFiles_harmless reference w : harmless w (snd (getJSONFiles reference w)).
Proof.
  unfold getJSONFiles. apply bind_harmless.
  - rewrite dirFiles_world. apply harmless_refl.
  - intros files w1. apply harmless_refl.
Qed.

Lemma getDirectoryFiles_harmless reference w :
  harmless w (snd (getDirectoryFiles reference w)).
Proof.
  unfold getDirectoryFiles. apply bind_harmless.
  - rewrite dirFiles_world. apply harmless_refl.
  - intros directories w1. apply bind_harmless.
    + apply promise_all_harmless. intros t Ht w2.
      apply list_elem_of_fmap in Ht as (x & -> & _).
      rewrite dirFiles_world. apply harmless_refl.
    + intros files w2. apply harmless_refl.
Qed.

Lemma createEmptyFolders_harmless reference w :
  harmless w (snd (createEmptyFolders this reference w)).
Proof.
  apply harmless_files.
  unfold createEmptyFolders, config_languages_map, bind, ret.
  destruct (languages (config this)) as [ls|]; [|done].
  pose proof (empty_folders_effect (folderToCheck reference) w ls w) as Heff.
  unfold createIfMissing, folderToCheck in Heff.
  match goal with |- context [promise_all ?ts w] =>
    destruct (promise_all ts w) as [r w'] eqn:E end.
  destruct (Heff r w' E) as (Hf & _); [done|]. by destruct r.
Qed.

Lemma createEmptyFiles_harmless reference baseFile isDir w :
  harmless w (snd (createEmptyFiles this reference baseFile isDir w)).
Proof.
  unfold createEmptyFiles, config_languages_map, bind, ret.
  destruct (languages (config this)) as [ls|]; [|apply harmless_refl].
  pose proof (empty_files_effect (fileToCheck reference baseFile isDir) w ls w) as Heff.
  unfold createIfMissing, fileToCheck in Heff.
  match goal with |- context [promise_all ?ts w] =>
    destruct (promise_all ts w) as [r w'] eqn:E end.
  destruct (Heff r w' E) as (Hkeep & _ & _ & Hnew); [done..|].
  assert (harmless w w') as Hh.
  { intros Hwf. split; [|split].
    - intros q doc Hq. destruct (Hnew q doc Hq) as [Hold|[-> _]];
        [by apply (Hwf q) | apply NoDup_nil_2].
    - intros q doc Hq. exists doc. split; [by apply Hkeep | done].
    - intros q doc Hq. destruct (Hnew q doc Hq) as [Hold|[-> _]]; [|by right].
      left. by exists doc. }
  by destruct r.
Qed.

Lemma acquireMissingTranslations_harmless baseFile langs isDir w :
  harmless w (snd (acquireMissingTranslations this baseFile langs isDir w)).
Proof.
  intros Hwf. pose proof (acquireMissingTranslations_cases this baseFile langs isDir w) as Hc.
  destruct (w_files w !! path baseFile) as [base|].
  - destruct Hc as (r & w' & Hrun & _ & Hf).
    destruct (targets_same_entries this base _ w r w' Hwf Hrun) as [Hsame Hwf'].
    unfold wf_files. rewrite Hf. split; [done|]. split.
    + intros q doc Hq. specialize (Hsame q). by rewrite Hq in Hsame.
    + intros q doc' Hq. specialize (Hsame q).
      destruct (w_files w !! q) as [doc|].
      * destruct Hsame as (doc2 & Hq2 & Hp). rewrite Hq in Hq2. injection Hq2 as <-.
        left. by exists doc.
      * congruence.
  - rewrite Hc. by apply harmless_files.
Qed.

Lemma runReference_harmless reference w :
  harmless w (snd (runReference this reference w)).
Proof.
  unfold runReference. apply bind_harmless.
  - destruct (existsSync (ref_path reference) w && isDirectory (ref_path reference) w);
      [apply getDirectoryFiles_harmless | apply getJSONFiles_harmless].
  - intros files w1. apply bind_harmless.
    + destruct (existsSync (ref_path reference) w && isDirectory (ref_path reference) w);
        [apply createEmptyFolders_harmless | apply harmless_refl].
    + intros _ w2. apply bind_harmless.
      * apply promise_all_harmless. intros t Ht w3.
        apply list_elem_of_fmap in Ht as (x & -> & _). apply createEmptyFiles_harmless.
      * intros _ w3. apply bind_harmless.
        -- apply promise_all_harmless. intros t Ht w4.
           apply list_elem_of_fmap in Ht as (x & -> & _).
           apply acquireMissingTranslations_harmless.
        -- intros _ w4. apply harmless_refl.
Qed.

End RunMore.

(** X22: a whole run adds, removes or changes no entry of a file that
    exists: once the writes the run started have finished, each such file
    has exactly the entries it had, in some order.  The files a run adds
    are the empty documents it creates for missing targets, and they are
    still empty then: whatever the provider returns, a run writes no
    translation. *)
Theorem run_changes_no_entry (this : TranslateService) (w : world) :
  wf_files w ->
  (forall (q : string) (doc : props),
     w_files w !! q = Some doc ->
     exists doc' : props, w_files (settled (run this w)) !! q = Some doc' /\ doc' ≡ₚ doc)
  /\ (forall (q : string) (doc' : props),
        w_files (settled (run this w)) !! q = Some doc' ->
        (exists doc : props, w_files w !! q = Some doc /\ doc' ≡ₚ doc) \/ doc' = []).
Proof.
  intros Hwf. unfold settled.
  assert (harmless w (snd (run this w))) as Hh.
  { unfold run. apply bind_harmless.
    - apply promise_all_harmless. intros t Ht w1.
      apply list_elem_of_fmap in Ht as (x & -> & _). apply runReference_harmless.
    - intros _ w1. apply harmless_refl. }
  by destruct (Hh Hwf) as (_ & Hkeep & Hnew).
Qed.

Lemma run_changes_no_entry_witness :
  let this := Sample.service (Some ["fr"; "de"]) 100 false "/i18n/en.json" in
  let w := Sample.disk [("Title", VStr "Hello")] [("Extra", VStr "Hello")] in
  (forall (q : string) (doc : props),
     w_files w !! q = Some doc ->
     exists doc' : props, w_files (settled (run this w)) !! q = Some doc' /\ doc' ≡ₚ doc)
  /\ (forall (q : string) (doc' : props),
        w_files (settled (run this w)) !! q = Some doc' ->
        (exists doc : props, w_files w !! q = Some doc /\ doc' ≡ₚ doc) \/ doc' = []).
Proof.
  apply (run_changes_no_entry (Sample.service (Some ["fr"; "de"]) 100 false "/i18n/en.json")
           (Sample.disk [("Title", VStr "Hello")] [("Extra", VStr "Hello")])).
  by_compute.
Defined.

(** ** What [acquireMissingTranslations] logs and asks *)

Section LogMore.

Variable this : TranslateService.

Lemma translateTarget_log base t w :
  exists evs,
    w_log (snd (translateTarget this base t w)) = w_log w ++ evs
    /\ length (List.filter is_call evs) <= 1
    /\ List.filter is_error evs = [].
Proof.
  unfold translateTarget, bind, require.
  destruct (w_files w !! path t) as [original|].
  2:{ exists []. simpl. rewrite app_nil_r. split; [done|]. split; [lia | done]. }
  rewrite (getTranslations_events this).
  exists (walk_events this (VObj (diffObjects base original)) (lang t)). split.
  - destruct (fst (getTranslations this (VObj (diffObjects base original)) (lang t)
                     (World ∅ ∅ []))) as [[u|]|e]; [|done..].
    match goal with |- context [writeFile ?p ?d ?wl] =>
      destruct (writeFile_cases p d wl) as [[_ ->]|[_ ->]] end; done.
  - destruct (walk_events_cases this (VObj (diffObjects base original)) (lang t))
      as [->|(text & _ & ->)]; simpl; auto.
Qed.

Lemma targets_log base (ts : list FileDetails) w :
  exists evs,
    w_log (snd (promise_all (map (translateTarget this base) ts) w)) = w_log w ++ evs
    /\ length (List.filter is_call evs) <= length ts
    /\ List.filter is_error evs = [].
Proof.
  revert w. induction ts as [|t ts IH]; intros w; simpl.
  - exists []. simpl. rewrite app_nil_r. split; [done|]. split; [lia | done].
  - destruct (translateTarget_log base t w) as (e1 & Hl1 & Hc1 & He1).
    destruct (translateTarget this base t w) as [r1 w1]. simpl in Hl1.
    destruct (IH w1) as (e2 & Hl2 & Hc2 & He2).
    destruct (promise_all (map (translateTarget this base) ts) w1) as [rs w2].
    simpl in *. exists (e1 ++ e2). split; [by rewrite Hl2, Hl1, app_assoc|].
    rewrite !List.filter_app, length_app, He1, He2. split; [lia | done].
Qed.

End LogMore.

(** X23: when the base file cannot be loaded, [acquireMissingTranslations]
    reads no target, asks the provider nothing and changes no file or
    directory: it logs the one error, with the failed load as its cause,
    and returns normally. *)
Theorem acquireMissingTranslations_without_base (this : TranslateService)
    (baseFile : FileDetails) (langs : list string) (isDir : bool) (w : world) :
  w_files w !! path baseFile = None ->
  acquireMissingTranslations this baseFile langs isDir w
  = (Ok tt,
     World (w_dirs w) (w_files w)
       (w_log w ++ [LogError "Failed to acquire missing translations"
                      (ModuleNotFound (path baseFile))])).
Proof.
  intros Hbase.
  pose proof (acquireMissingTranslations_cases this baseFile langs isDir w) as Hc.
  by rewrite Hbase in Hc.
Qed.

Lemma acquireMissingTranslations_without_base_witness :
  acquireMissingTranslations Sample.fr100 {| lang := "en"; path := "en.json" |} ["fr"] false
    (Sample.disk [] [])
  = (Ok tt,
     World (w_dirs (Sample.disk [] [])) (w_files (Sample.disk [] []))
       (w_log (Sample.disk [] [])
          ++ [LogError "Failed to acquire missing translations" (ModuleNotFound "en.json")])).
Proof.
  apply (acquireMissingTranslations_without_base Sample.fr100
           {| lang := "en"; path := "en.json" |} ["fr"] false (Sample.disk [] [])).
  reflexivity.
Defined.

(** X24: one call of [acquireMissingTranslations] only appends to the log;
    it asks the provider at most once per language it was given, and it
    logs at most one error, however many of its targets fail. *)
Theorem acquireMissingTranslations_log (this : TranslateService) (baseFile : FileDetails)
    (langs : list string) (isDir : bool) (w : world) :
  exists evs,
    w_log (snd (acquireMissingTranslations this baseFile langs isDir w)) = w_log w ++ evs
    /\ length (List.filter is_call evs) <= length langs
    /\ length (List.filter is_error evs) <= 1.
Proof.
  destruct (w_files w !! path baseFile) as [base|] eqn:Hbase.
  - rewrite (acquireMissingTranslations_unfold this base) by done.
    destruct (targets_log this base (map (target baseFile isDir) langs) w)
      as (evs & Hlog & Hcalls & Herr).
    rewrite length_map in Hcalls.
    destruct (promise_all (map (translateTarget this base)
                             (map (target baseFile isDir) langs)) w) as [[l|e] w'];
      simpl in Hlog |- *.
    + exists evs. rewrite Herr. simpl. split; [done|]. split; [done | lia].
    + exists (evs ++ [LogError "Failed to acquire missing translations" e]).
      rewrite Hlog, <- app_assoc, !List.filter_app, !length_app, Herr. simpl.
      split; [done|]. split; lia.
  - pose proof (acquireMissingTranslations_cases this baseFile langs isDir w) as Hc.
    rewrite Hbase in Hc. rewrite Hc. simpl.
    exists [LogError "Failed to acquire missing translations" (ModuleNotFound (path baseFile))].
    simpl. split; [done|]. split; lia.
Qed.
